(** * prettyprinter-ts: a shallow embedding of the document algebra, the
      flatten analysis, the Wadler/Leijen layout engine and the renderer.

    Conventions of the embedding.
    - A JavaScript [number] that holds a column, an indentation or a width is
      an integer [Z]; the ribbon fraction is a rational [Q].
    - A JavaScript [string] is a [string]; [t.length] is [String.length t].
    - A thrown exception (fp-ts [absurd]) is [None] in an [option] result.
    - The repository is present in two revisions.  Where they agree only one
      definition is given.  They differ in the destructor names ([fold] in
      the earlier revision, [match] in the later one) and in one line of
      [layoutSmart]; that line is embedded for both revisions. *)

From Stdlib Require Import ZArith QArith Qround String Ascii List Bool Lia.
From Stdlib Require Import FunctionalExtensionality.
Import ListNotations.

Local Open Scope string_scope.
Local Open Scope Z_scope.

(* ===================================================================== *)
(** * PageWidth.ts *)
(* ===================================================================== *)

Inductive PageWidth : Type :=
| AvailablePerLine (lineWidth : Z) (ribbonFraction : Q)
| Unbounded.

Module PW.

Definition defaultPageWidth : PageWidth := AvailablePerLine 80 1%Q.

(** [min], [max] and [floor] of PageWidth.ts are [Z.min], [Z.max], [Qfloor]. *)
Definition remainingWidth
  (lineLength : Z) (ribbonFraction : Q) (lineIndent currentColumn : Z) : Z :=
  let columnsLeftInLine := lineLength - currentColumn in
  let ribbonWidth :=
    Z.max 0 (Z.min lineLength (Qfloor (inject_Z lineLength * ribbonFraction))) in
  let columnsLeftInRibbon := lineIndent + ribbonWidth - currentColumn in
  Z.min columnsLeftInLine columnsLeftInRibbon.

End PW.

(* ===================================================================== *)
(** * Doc.ts: model *)
(* ===================================================================== *)

(** The thirteen node kinds.  [Char] carries a JavaScript string, as the
    source's [readonly char: string] does; nothing in the constructor checks
    its length. *)
Inductive Doc (A : Type) : Type :=
| Fail
| Empty
| Char (char : string)
| Text (text : string)
| Line
| FlatAlt (x y : Doc A)
| Cat (x y : Doc A)
| Nest (indent : Z) (doc : Doc A)
| Union (x y : Doc A)
| Column (react : Z -> Doc A)
| WithPageWidth (react : PageWidth -> Doc A)
| Nesting (react : Z -> Doc A)
| Annotated (annotation : A) (doc : Doc A).

Arguments Fail {A}.
Arguments Empty {A}.
Arguments Char {A} char.
Arguments Text {A} text.
Arguments Line {A}.
Arguments FlatAlt {A} x y.
Arguments Cat {A} x y.
Arguments Nest {A} indent doc.
Arguments Union {A} x y.
Arguments Column {A} react.
Arguments WithPageWidth {A} react.
Arguments Nesting {A} react.
Arguments Annotated {A} annotation doc.

(* ===================================================================== *)
(** * SimpleDocStream.ts: model *)
(* ===================================================================== *)

Inductive SimpleDocStream (A : Type) : Type :=
| SFail
| SEmpty
| SChar (char : string) (stream : SimpleDocStream A)
| SText (text : string) (stream : SimpleDocStream A)
| SLine (indentation : Z) (stream : SimpleDocStream A)
| SAnnPush (annotation : A) (stream : SimpleDocStream A)
| SAnnPop (stream : SimpleDocStream A).

Arguments SFail {A}.
Arguments SEmpty {A}.
Arguments SChar {A} char stream.
Arguments SText {A} text stream.
Arguments SLine {A} indentation stream.
Arguments SAnnPush {A} annotation stream.
Arguments SAnnPop {A} stream.

(** [t.length] as a column count. *)
Definition strlen (t : string) : Z := Z.of_nat (String.length t).

(* ===================================================================== *)
(** * Flatten.ts *)
(* ===================================================================== *)

Inductive FlattenResult (A : Type) : Type :=
| Flattened (value : A)
| AlreadyFlat
| NeverFlat.

Arguments Flattened {A} value.
Arguments AlreadyFlat {A}.
Arguments NeverFlat {A}.

Module F.

Section Flatten.
Context {A : Type}.

(** [map] of the [FlattenResult] functor. *)
Definition map {X Y : Type} (f : X -> Y) (fa : FlattenResult X) : FlattenResult Y :=
  match fa with
  | Flattened a => Flattened (f a)
  | AlreadyFlat => AlreadyFlat
  | NeverFlat => NeverFlat
  end.

(** [flow(f, flatten)] is [fun n => flatten (f n)]. *)
Fixpoint flatten (doc : Doc A) : Doc A :=
  match doc with
  | Fail => doc
  | Empty => doc
  | Char _ => doc
  | Text _ => doc
  | Line => Fail
  | FlatAlt _ y => flatten y
  | Cat x y => Cat (flatten x) (flatten y)
  | Nest i x => Nest i (flatten x)
  | Union x _ => flatten x
  | Column f => Column (fun n => flatten (f n))
  | WithPageWidth f => WithPageWidth (fun w => flatten (f w))
  | Nesting f => Nesting (fun n => flatten (f n))
  | Annotated a x => Annotated a (flatten x)
  end.

(** The [Cat] case tests the two tags in the order of the source's five
    [if]s; the trailing [absurd] is unreachable because the five tests cover
    the nine tag pairs. *)
Fixpoint changesUponFlattening (doc : Doc A) : FlattenResult (Doc A) :=
  match doc with
  | Empty => AlreadyFlat
  | Char _ => AlreadyFlat
  | Text _ => AlreadyFlat
  | Fail => AlreadyFlat
  | Line => NeverFlat
  | FlatAlt _ y => Flattened (flatten y)
  | Cat x y =>
      let a := changesUponFlattening x in
      let b := changesUponFlattening y in
      match a, b with
      | NeverFlat, _ => NeverFlat
      | _, NeverFlat => NeverFlat
      | Flattened av, Flattened bv => Flattened (Cat av bv)
      | Flattened av, AlreadyFlat => Flattened (Cat av y)
      | AlreadyFlat, Flattened bv => Flattened (Cat x bv)
      | AlreadyFlat, AlreadyFlat => AlreadyFlat
      end
  | Nest i a => map (fun b => Nest i b) (changesUponFlattening a)
  | Union x _ => Flattened x
  | Column f => Flattened (Column (fun n => flatten (f n)))
  | WithPageWidth f => Flattened (WithPageWidth (fun w => flatten (f w)))
  | Nesting f => Flattened (Column (fun n => flatten (f n)))
  | Annotated a x => map (fun b => Annotated a b) (changesUponFlattening x)
  end.

End Flatten.

End F.

(* ===================================================================== *)
(** * Doc.ts: combinators *)
(* ===================================================================== *)

Module D.

Section Combinators.
Context {A : Type}.

(** ** primitive combinators *)

Definition lparen : Doc A := Char "(".
Definition rparen : Doc A := Char ")".
Definition lbracket : Doc A := Char "[".
Definition rbracket : Doc A := Char "]".
Definition comma : Doc A := Char ",".
Definition space : Doc A := Char " ".
Definition fail : Doc A := Fail.
Definition empty : Doc A := Empty.
Definition char : string -> Doc A := Char.
Definition text : string -> Doc A := Text.
Definition line : Doc A := FlatAlt Line (Char " ").
Definition lineBreak : Doc A := FlatAlt Line Empty.
Definition softLine : Doc A := Union (Char " ") Line.
Definition softLineBreak : Doc A := Union Empty Line.
Definition hardLine : Doc A := Line.

Definition nest (indent : Z) (doc : Doc A) : Doc A :=
  if indent =? 0 then doc else Nest indent doc.

(** ** alternative combinators *)

(** The inner helper [group_] of [group]. *)
Definition group_ (a : Doc A) : Doc A :=
  match F.changesUponFlattening a with
  | Flattened b => Union b a
  | AlreadyFlat => a
  | NeverFlat => a
  end.

(** All thirteen arms of the source's destructor call are kept. *)
Definition group (doc : Doc A) : Doc A :=
  match doc with
  | Fail => group_ doc
  | Empty => group_ doc
  | Char _ => group_ doc
  | Text _ => group_ doc
  | Line => group_ doc
  | FlatAlt a b =>
      match F.changesUponFlattening b with
      | Flattened b_ => Union b_ a
      | AlreadyFlat => Union b a
      | NeverFlat => a
      end
  | Cat _ _ => group_ doc
  | Nest _ _ => group_ doc
  | Union _ _ => doc
  | Column _ => group_ doc
  | WithPageWidth _ => group_ doc
  | Nesting _ => group_ doc
  | Annotated _ _ => group_ doc
  end.

Definition flatAlt (x y : Doc A) : Doc A := FlatAlt x y.

(** ** reactive combinators *)

Definition column : (Z -> Doc A) -> Doc A := Column.
Definition nesting : (Z -> Doc A) -> Doc A := Nesting.
Definition pageWidth : (PageWidth -> Doc A) -> Doc A := WithPageWidth.

Definition width (react : Z -> Doc A) (doc : Doc A) : Doc A :=
  column (fun colStart => Cat doc (column (fun colEnd => react (colEnd - colStart)))).

(** ** alignment combinators *)

Definition align (doc : Doc A) : Doc A :=
  column (fun k => nesting (fun i => nest (k - i) doc)).

Definition hang (indent : Z) (doc : Doc A) : Doc A := align (nest indent doc).

(** ** concatenation combinators *)

(** [RA.foldRight(onNil, (init, last) => init.reduceRight(last, f))]: the
    empty array gives [empty]; otherwise the array is split into all but its
    last element and its last element, and folded from the right. *)
Definition concatWith (f : Doc A -> Doc A -> Doc A) (docs : list (Doc A)) : Doc A :=
  match docs with
  | [] => empty
  | _ :: _ => fold_right f (last docs Empty) (removelast docs)
  end.

Definition appendWithSpace (x y : Doc A) : Doc A := Cat x (Cat space y).
Definition appendWithLine (x y : Doc A) : Doc A := Cat x (Cat line y).
Definition appendWithLineBreak (x y : Doc A) : Doc A := Cat x (Cat lineBreak y).
Definition appendWithSoftLine (x y : Doc A) : Doc A := Cat x (Cat softLine y).
Definition appendWithSoftLineBreak (x y : Doc A) : Doc A := Cat x (Cat softLineBreak y).

Definition hsep : list (Doc A) -> Doc A := concatWith appendWithSpace.
Definition vsep : list (Doc A) -> Doc A := concatWith appendWithLine.
Definition fillSep : list (Doc A) -> Doc A := concatWith appendWithSoftLine.
Definition sep (docs : list (Doc A)) : Doc A := group (vsep docs).
Definition hcat : list (Doc A) -> Doc A := concatWith Cat.
Definition vcat : list (Doc A) -> Doc A := concatWith appendWithLineBreak.
Definition fillCat : list (Doc A) -> Doc A := concatWith appendWithSoftLineBreak.
Definition cat (docs : list (Doc A)) : Doc A := group (vcat docs).

(** ** general combinators *)

Definition enclose (left right doc : Doc A) : Doc A := Cat left (Cat doc right).

(** [RA.replicate(n, ' ')] folded with the string monoid. *)
Definition textSpaces (n : Z) : string := String.concat EmptyString (repeat " " (Z.to_nat n)).

Definition spaces (n : Z) : Doc A :=
  if n <=? 0 then Empty
  else if n =? 1 then Char " "
  else Text (textSpaces n).

Definition indent (i : Z) (doc : Doc A) : Doc A := hang i (Cat (spaces i) doc).

(** [RA.zipWith(fa, fb, f)] stops at the shorter array. *)
Fixpoint zipWith {X Y W : Type} (fa : list X) (fb : list Y) (f : X -> Y -> W) : list W :=
  match fa, fb with
  | a :: fa', b :: fb' => f a b :: zipWith fa' fb' f
  | _, _ => []
  end.

Definition encloseSep (left right sep : Doc A) (docs : list (Doc A)) : Doc A :=
  match docs with
  | [] => Cat left right
  | [d0] => Cat left (Cat d0 right)
  | _ =>
      let xs := zipWith (left :: repeat sep (length docs - 1)) docs Cat in
      Cat (cat xs) right
  end.

Definition tupled (docs : list (Doc A)) : Doc A :=
  group (encloseSep (flatAlt (char "( ") lparen) (flatAlt (char " )") rparen) (char ", ") docs).

Definition list (docs : Datatypes.list (Doc A)) : Doc A :=
  group (encloseSep (flatAlt (char "[ ") lbracket) (flatAlt (char " ]") rbracket) (char ", ") docs).

End Combinators.

End D.

(* ===================================================================== *)
(** * Layout.ts *)
(* ===================================================================== *)

(** The engine's work list. *)
Inductive LayoutPipeline (A : Type) : Type :=
| Nil
| Cons (indentation : Z) (document : Doc A) (pipeline : LayoutPipeline A)
| UndoAnn (pipeline : LayoutPipeline A).

Arguments Nil {A}.
Arguments Cons {A} indentation document pipeline.
Arguments UndoAnn {A} pipeline.

Record LayoutOptions : Type := { pageWidth : PageWidth }.

Module L.

Definition defaultLayoutOptions : LayoutOptions := {| pageWidth := PW.defaultPageWidth |}.

Section Layout.
Context {A : Type}.

(** [(lineIndent, currentColumn, initialIndentY, stream) => boolean] *)
Definition FittingPredicate : Type :=
  Z -> Z -> option Z -> SimpleDocStream A -> bool.

Fixpoint initialIndentation (stream : SimpleDocStream A) : option Z :=
  match stream with
  | SFail => None
  | SEmpty => None
  | SChar _ _ => None
  | SText _ _ => None
  | SLine i _ => Some i
  | SAnnPush _ s => initialIndentation s
  | SAnnPop s => initialIndentation s
  end.

Definition selectNicer (fits : FittingPredicate) (lineIndent currentColumn : Z)
  (x y : SimpleDocStream A) : SimpleDocStream A :=
  if fits lineIndent currentColumn (initialIndentation y) x then x else y.

(** The indentation written by the [Line] arm of [best]:
    [x._tag === 'SEmpty' || x._tag === 'SLine' ? 0 : i]. *)
Definition lineIndentation (i : Z) (x : SimpleDocStream A) : Z :=
  match x with
  | SEmpty => 0
  | SLine _ _ => 0
  | _ => i
  end.

Section WadlerLeijen.
Variable fits : FittingPredicate.
Variable pw : PageWidth.

(** ** [best], transcribed arm by arm.

    The source's [best] recurses on pipelines that are not sub-terms of its
    argument ([Cons(i, x, Cons(i, y, ds))]).  [best_fuel] is the literal
    transcription, with a step budget; [None] means the budget ran out. *)
Fixpoint best_fuel (n : nat) (nl cc : Z) (p : LayoutPipeline A)
  : option (SimpleDocStream A) :=
  match n with
  | O => None
  | S n =>
    match p with
    | Nil => Some SEmpty
    | Cons i d ds =>
      match d with
      | Fail => Some SFail
      | Empty => best_fuel n nl cc ds
      | Char c => option_map (SChar c) (best_fuel n nl (cc + 1) ds)
      | Text t => option_map (SText t) (best_fuel n nl (cc + strlen t) ds)
      | Line =>
          match best_fuel n i i ds with
          | Some x => Some (SLine (lineIndentation i x) x)
          | None => None
          end
      | FlatAlt x _ => best_fuel n nl cc (Cons i x ds)
      | Cat x y => best_fuel n nl cc (Cons i x (Cons i y ds))
      | Nest j x => best_fuel n nl cc (Cons (i + j) x ds)
      | Union x y =>
          match best_fuel n nl cc (Cons i x ds) with
          | Some _x =>
              match best_fuel n nl cc (Cons i y ds) with
              | Some _y => Some (selectNicer fits nl cc _x _y)
              | None => None
              end
          | None => None
          end
      | Column f => best_fuel n nl cc (Cons i (f cc) ds)
      | WithPageWidth f => best_fuel n nl cc (Cons i (f pw) ds)
      | Nesting f => best_fuel n nl cc (Cons i (f i) ds)
      | Annotated ann x =>
          option_map (SAnnPush ann) (best_fuel n nl cc (Cons i x (UndoAnn ds)))
      end
    | UndoAnn ds => option_map SAnnPop (best_fuel n nl cc ds)
    end
  end.

(** The same function without a budget.  [bestDoc d i k nl cc] lays out the
    head document [d] of a [Cons(i, d, ds)] frame, where [k nl' cc'] stands
    for [best(nl', cc')(ds)]; it is structural in [d].  The equations of the
    source are recovered as lemmas ([best_Cat], [best_Union], ...), and
    [best_fuel] is shown to agree with it. *)
Fixpoint bestDoc (d : Doc A) (i : Z) (k : Z -> Z -> SimpleDocStream A)
  (nl cc : Z) {struct d} : SimpleDocStream A :=
  match d with
  | Fail => SFail
  | Empty => k nl cc
  | Char c => SChar c (k nl (cc + 1))
  | Text t => SText t (k nl (cc + strlen t))
  | Line => let x := k i i in SLine (lineIndentation i x) x
  | FlatAlt x _ => bestDoc x i k nl cc
  | Cat x y => bestDoc x i (bestDoc y i k) nl cc
  | Nest j x => bestDoc x (i + j) k nl cc
  | Union x y =>
      let _x := bestDoc x i k nl cc in
      let _y := bestDoc y i k nl cc in
      selectNicer fits nl cc _x _y
  | Column f => bestDoc (f cc) i k nl cc
  | WithPageWidth f => bestDoc (f pw) i k nl cc
  | Nesting f => bestDoc (f i) i k nl cc
  | Annotated ann x => SAnnPush ann (bestDoc x i (fun nl' cc' => SAnnPop (k nl' cc')) nl cc)
  end.

Fixpoint best (nl cc : Z) (p : LayoutPipeline A) {struct p} : SimpleDocStream A :=
  match p with
  | Nil => SEmpty
  | Cons i d ds => bestDoc d i (fun nl' cc' => best nl' cc' ds) nl cc
  | UndoAnn ds => SAnnPop (best nl cc ds)
  end.

Definition layoutWadlerLeijen (doc : Doc A) : SimpleDocStream A :=
  best 0 0 (Cons 0 doc Nil).

Definition layoutWadlerLeijen_fuel (n : nat) (doc : Doc A) : option (SimpleDocStream A) :=
  best_fuel n 0 0 (Cons 0 doc Nil).

End WadlerLeijen.

Fixpoint failsOnFirstLine (stream : SimpleDocStream A) : bool :=
  match stream with
  | SFail => true
  | SEmpty => false
  | SChar _ s => failsOnFirstLine s
  | SText _ s => failsOnFirstLine s
  | SLine _ _ => false
  | SAnnPush _ s => failsOnFirstLine s
  | SAnnPop s => failsOnFirstLine s
  end.

(** The fitting predicate of [layoutUnbounded]:
    [(_, __, ___, sds) => pipe(sds, not(failsOnFirstLine))]. *)
Definition fitsUnbounded : FittingPredicate :=
  fun _ _ _ sds => negb (failsOnFirstLine sds).

Definition layoutUnbounded (doc : Doc A) : SimpleDocStream A :=
  layoutWadlerLeijen fitsUnbounded Unbounded doc.

(** The local [fits] of [layoutPretty]. *)
Fixpoint fitsWidth (width : Z) (stream : SimpleDocStream A) : bool :=
  if width <? 0 then false
  else
    match stream with
    | SFail => false
    | SEmpty => true
    | SChar _ x => fitsWidth (width - 1) x
    | SText t x => fitsWidth (width - strlen t) x
    | SLine _ _ => true
    | SAnnPush _ x => fitsWidth width x
    | SAnnPop x => fitsWidth width x
    end.

Definition fitsPretty (lw : Z) (rfrac : Q) : FittingPredicate :=
  fun nl cc _ sds => fitsWidth (PW.remainingWidth lw rfrac nl cc) sds.

Definition layoutPretty (doc : Doc A) (options : LayoutOptions) : SimpleDocStream A :=
  match pageWidth options with
  | AvailablePerLine lw rfrac => layoutWadlerLeijen (fitsPretty lw rfrac) (pageWidth options) doc
  | Unbounded => layoutUnbounded doc
  end.

(** ** [layoutSmart]

    [minNestingLevel] of the local [fits]. *)
Definition minNestingLevel (currentColumn : Z) (initialIndentY : option Z) : Z :=
  match initialIndentY with
  | None => currentColumn
  | Some i => Z.min i currentColumn
  end.

(** The local [go] of [layoutSmart] in the revision whose destructors are
    named [match] (first listing of Layout.ts): the [SLine] arm is
    [minNestingLevel < i ? pipe(x, go(i - lineWidth)) : true]. *)
Fixpoint go (lineWidth mnl : Z) (width : Z) (stream : SimpleDocStream A) : bool :=
  if width <? 0 then false
  else
    match stream with
    | SFail => false
    | SEmpty => true
    | SChar _ x => go lineWidth mnl (width - 1) x
    | SText t x => go lineWidth mnl (width - strlen t) x
    | SLine i x => if mnl <? i then go lineWidth mnl (i - lineWidth) x else true
    | SAnnPush _ x => go lineWidth mnl width x
    | SAnnPop x => go lineWidth mnl width x
    end.

(** The same [go] in the revision whose destructors are named [fold]
    (second listing of Layout.ts): the [SLine] arm is
    [minNestingLevel < i ? pipe(x, go(lw - i)) : true]. *)
Fixpoint go_fold (lw mnl : Z) (w : Z) (stream : SimpleDocStream A) : bool :=
  if w <? 0 then false
  else
    match stream with
    | SFail => false
    | SEmpty => true
    | SChar _ x => go_fold lw mnl (w - 1) x
    | SText t x => go_fold lw mnl (w - strlen t) x
    | SLine i x => if mnl <? i then go_fold lw mnl (lw - i) x else true
    | SAnnPush _ x => go_fold lw mnl w x
    | SAnnPop x => go_fold lw mnl w x
    end.

Definition fitsSmart (lineWidth : Z) (ribbonFraction : Q) : FittingPredicate :=
  fun lineIndent currentColumn initialIndentY stream =>
    let availableWidth := PW.remainingWidth lineWidth ribbonFraction lineIndent currentColumn in
    go lineWidth (minNestingLevel currentColumn initialIndentY) availableWidth stream.

Definition fitsSmart_fold (lw : Z) (rfrac : Q) : FittingPredicate :=
  fun nl cc iy stream =>
    let availableWidth := PW.remainingWidth lw rfrac nl cc in
    go_fold lw (minNestingLevel cc iy) availableWidth stream.

Definition layoutSmart (doc : Doc A) (options : LayoutOptions) : SimpleDocStream A :=
  match pageWidth options with
  | AvailablePerLine lineWidth ribbonFraction =>
      layoutWadlerLeijen (fitsSmart lineWidth ribbonFraction) (pageWidth options) doc
  | Unbounded => layoutUnbounded doc
  end.

Definition layoutSmart_fold (doc : Doc A) (options : LayoutOptions) : SimpleDocStream A :=
  match pageWidth options with
  | AvailablePerLine lw rfrac =>
      layoutWadlerLeijen (fitsSmart_fold lw rfrac) (pageWidth options) doc
  | Unbounded => layoutUnbounded doc
  end.

(** ** [layoutCompact]

    [scan_fuel] is the literal transcription of the local [scan], which
    pushes documents on an array it then recurses on; [scanDoc]/[scan] is the
    same function, structural in the head document.  The annotation type
    [B] of the result is unrelated to [A]: no annotation is copied. *)
Section Compact.
Context {B : Type}.

Fixpoint scan_fuel (n : nat) (col : Z) (docs : list (Doc A)) : option (SimpleDocStream B) :=
  match n with
  | O => None
  | S n =>
    match docs with
    | [] => Some SEmpty
    | d :: ds =>
      match d with
      | Fail => Some SFail
      | Empty => scan_fuel n col ds
      | Char c => option_map (SChar c) (scan_fuel n (col + 1) ds)
      | Text t => option_map (SText t) (scan_fuel n (col + strlen t) ds)
      | FlatAlt x _ => scan_fuel n col (x :: ds)
      | Line => option_map (SLine 0) (scan_fuel n 0 ds)
      | Cat x y => scan_fuel n col (x :: y :: ds)
      | Nest _ x => scan_fuel n col (x :: ds)
      | Union _ y => scan_fuel n col (y :: ds)
      | Column f => scan_fuel n col (f col :: ds)
      | WithPageWidth f => scan_fuel n col (f Unbounded :: ds)
      | Nesting f => scan_fuel n col (f 0 :: ds)
      | Annotated _ x => scan_fuel n col (x :: ds)
      end
    end
  end.

Fixpoint scanDoc (d : Doc A) (k : Z -> SimpleDocStream B) (col : Z) {struct d}
  : SimpleDocStream B :=
  match d with
  | Fail => SFail
  | Empty => k col
  | Char c => SChar c (k (col + 1))
  | Text t => SText t (k (col + strlen t))
  | FlatAlt x _ => scanDoc x k col
  | Line => SLine 0 (k 0)
  | Cat x y => scanDoc x (scanDoc y k) col
  | Nest _ x => scanDoc x k col
  | Union _ y => scanDoc y k col
  | Column f => scanDoc (f col) k col
  | WithPageWidth f => scanDoc (f Unbounded) k col
  | Nesting f => scanDoc (f 0) k col
  | Annotated _ x => scanDoc x k col
  end.

Fixpoint scan (col : Z) (docs : list (Doc A)) {struct docs} : SimpleDocStream B :=
  match docs with
  | [] => SEmpty
  | d :: ds => scanDoc d (fun col' => scan col' ds) col
  end.

Definition layoutCompact (doc : Doc A) : SimpleDocStream B := scan 0 [doc].

Definition layoutCompact_fuel (n : nat) (doc : Doc A) : option (SimpleDocStream B) :=
  scan_fuel n 0 [doc].

End Compact.

End Layout.

End L.

(* ===================================================================== *)
(** * Render.ts *)
(* ===================================================================== *)

Module R.

(** The one-character string ["\n"]. *)
Definition newline : string := String (ascii_of_nat 10) EmptyString.

(** [M.fold(M.monoidString)]: concatenation of an array of strings. *)
Definition foldS (xs : list string) : string := String.concat EmptyString xs.

Section Render.
Context {A : Type}.

(** [renderS]; the [SFail] arm calls fp-ts [absurd], which throws: [None].
    The recursive call sits inside an array literal, so an exception raised
    by it leaves the enclosing call as well. *)
Fixpoint renderS (stream : SimpleDocStream A) : option string :=
  match stream with
  | SFail => None
  | SEmpty => Some EmptyString
  | SChar c x =>
      match renderS x with
      | Some r => Some (foldS [c; r])
      | None => None
      end
  | SText t x =>
      match renderS x with
      | Some r => Some (foldS [t; r])
      | None => None
      end
  | SLine i x =>
      let lead := foldS (newline :: repeat " " (Z.to_nat i)) in
      match renderS x with
      | Some r => Some (foldS [lead; r])
      | None => None
      end
  | SAnnPush _ x => renderS x
  | SAnnPop x => renderS x
  end.

Definition render (doc : Doc A) : option string :=
  renderS (L.layoutPretty doc L.defaultLayoutOptions).

Definition renderWidth (lineWidth : Z) (ribbonFraction : Q) (doc : Doc A) : option string :=
  renderS (L.layoutPretty doc {| pageWidth := AvailablePerLine lineWidth ribbonFraction |}).

Definition renderUnbounded (doc : Doc A) : option string :=
  renderS (L.layoutPretty doc {| pageWidth := Unbounded |}).

End Render.

End R.

(* ===================================================================== *)
(** * Call-by-value evaluation of [best], counting the stream nodes built *)
(* ===================================================================== *)

(** JavaScript evaluates the arguments of a call before the call and a
    [const] initialiser before the next statement, and the fields of a
    [SimpleDocStream] node are plain values.  [Counted X] pairs a result with
    the number of [SChar]/[SText]/[SLine]/[SAnnPush]/[SAnnPop] nodes built on
    the way to it ([SFail] and [SEmpty] are shared constants). *)
Module CBV.

Definition Counted (X : Type) : Type := (X * nat)%type.

Definition ret {X : Type} (x : X) : Counted X := (x, O).

Definition bind {X Y : Type} (m : Counted X) (f : X -> Counted Y) : Counted Y :=
  let r := f (fst m) in (fst r, (snd m + snd r)%nat).

(** One constructor call. *)
Definition node {X : Type} (x : X) : Counted X := (x, 1%nat).

Section Best.
Context {A : Type}.
Variable fits : Z -> Z -> option Z -> SimpleDocStream A -> bool.
Variable pw : PageWidth.

Fixpoint bestDoc (d : Doc A) (i : Z) (k : Z -> Z -> Counted (SimpleDocStream A))
  (nl cc : Z) {struct d} : Counted (SimpleDocStream A) :=
  match d with
  | Fail => ret SFail
  | Empty => k nl cc
  | Char c => bind (k nl (cc + 1)) (fun r => node (SChar c r))
  | Text t => bind (k nl (cc + strlen t)) (fun r => node (SText t r))
  | Line => bind (k i i) (fun x => node (SLine (L.lineIndentation i x) x))
  | FlatAlt x _ => bestDoc x i k nl cc
  | Cat x y => bestDoc x i (bestDoc y i k) nl cc
  | Nest j x => bestDoc x (i + j) k nl cc
  | Union x y =>
      bind (bestDoc x i k nl cc) (fun _x =>
      bind (bestDoc y i k nl cc) (fun _y =>
      ret (L.selectNicer fits nl cc _x _y)))
  | Column f => bestDoc (f cc) i k nl cc
  | WithPageWidth f => bestDoc (f pw) i k nl cc
  | Nesting f => bestDoc (f i) i k nl cc
  | Annotated ann x =>
      bind (bestDoc x i (fun nl' cc' => bind (k nl' cc') (fun r => node (SAnnPop r))) nl cc)
           (fun r => node (SAnnPush ann r))
  end.

Fixpoint best (nl cc : Z) (p : LayoutPipeline A) {struct p} : Counted (SimpleDocStream A) :=
  match p with
  | Nil => ret SEmpty
  | Cons i d ds => bestDoc d i (fun nl' cc' => best nl' cc' ds) nl cc
  | UndoAnn ds => bind (best nl cc ds) (fun r => node (SAnnPop r))
  end.

End Best.

Section Streams.
Context {A : Type}.

(** Number of nodes of a stream that had to be built. *)
Fixpoint streamNodes (s : SimpleDocStream A) : nat :=
  match s with
  | SFail => O
  | SEmpty => O
  | SChar _ r => S (streamNodes r)
  | SText _ r => S (streamNodes r)
  | SLine _ r => S (streamNodes r)
  | SAnnPush _ r => S (streamNodes r)
  | SAnnPop r => S (streamNodes r)
  end.

(** Nodes of a stream that exist as soon as its first node does, were the
    stream produced on demand: the [Line] arm of [best] reads the tag of the
    stream that follows the break before it builds the [SLine], so a line
    break comes with the first node of what follows it. *)
Fixpoint firstNodeDemand (s : SimpleDocStream A) : nat :=
  match s with
  | SFail => O
  | SEmpty => O
  | SLine _ r => S (firstNodeDemand r)
  | _ => 1%nat
  end.

(** Nodes of its second stream that [selectNicer] needs: [initialIndentation],
    its only inspection of that stream, walks through the annotation marks to
    the first other node. *)
Fixpoint demandedNodes (s : SimpleDocStream A) : nat :=
  match s with
  | SAnnPush _ r => S (demandedNodes r)
  | SAnnPop r => S (demandedNodes r)
  | _ => firstNodeDemand s
  end.

(** No [Union] node anywhere in the document, whatever its reactive nodes
    are applied to. *)
Fixpoint unionFree (d : Doc A) : Prop :=
  match d with
  | Fail => True
  | Empty => True
  | Char _ => True
  | Text _ => True
  | Line => True
  | FlatAlt x y => unionFree x /\ unionFree y
  | Cat x y => unionFree x /\ unionFree y
  | Nest _ x => unionFree x
  | Union _ _ => False
  | Column f => forall c, unionFree (f c)
  | WithPageWidth f => forall w, unionFree (f w)
  | Nesting f => forall l, unionFree (f l)
  | Annotated _ x => unionFree x
  end.

Fixpoint unionFreePipeline (p : LayoutPipeline A) : Prop :=
  match p with
  | Nil => True
  | Cons _ d ds => unionFree d /\ unionFreePipeline ds
  | UndoAnn ds => unionFreePipeline ds
  end.

(** The reading of "the discarded alternative is produced on demand" for a
    [Union] frame whose first alternative is chosen and whose second one
    holds no choice of its own, nor does what follows it: beyond what
    laying out the first alternative builds, only the nodes of the second
    stream that [selectNicer] needs are built. *)
Definition discardedTailUnforced
  (fits : Z -> Z -> option Z -> SimpleDocStream A -> bool) (pw : PageWidth)
  (nl cc i : Z) (x y : Doc A) (ds : LayoutPipeline A) : Prop :=
  let bx := best fits pw nl cc (Cons i x ds) in
  let sy := fst (best fits pw nl cc (Cons i y ds)) in
  L.selectNicer fits nl cc (fst bx) sy = fst bx ->
  unionFreePipeline (Cons i y ds) ->
  (snd (best fits pw nl cc (Cons i (Union x y) ds))
     <= snd bx + demandedNodes sy)%nat.

End Streams.

End CBV.

(* ===================================================================== *)
(** * SimpleDocStream.ts: utilities *)
(* ===================================================================== *)

(** ['Remove' | 'DontRemove'] *)
Inductive AnnotationRemoval : Type := Remove | DontRemove.

Inductive WhitespaceStrippingState : Type :=
| AnnotationLevel (level : Z)
| RecordedWhitespace (withheldLines : list Z) (withheldSpaces : Z).

Module SDS.

(** [t.replace(/ *$/, '')]: [t] without its trailing run of spaces. *)
Fixpoint stripEndSpaces (t : string) : string :=
  match t with
  | EmptyString => EmptyString
  | String c t' =>
      match stripEndSpaces t' with
      | EmptyString => if Ascii.eqb c " "%char then EmptyString else String c EmptyString
      | r => String c r
      end
  end.

Section Utils.
Context {A : Type}.

Fixpoint reAnnotateS {B : Type} (f : A -> B) (stream : SimpleDocStream A)
  : SimpleDocStream B :=
  match stream with
  | SFail => SFail
  | SEmpty => SEmpty
  | SChar c rest => SChar c (reAnnotateS f rest)
  | SText t rest => SText t (reAnnotateS f rest)
  | SLine i rest => SLine i (reAnnotateS f rest)
  | SAnnPop rest => reAnnotateS f rest
  | SAnnPush a rest => SAnnPush (f a) (reAnnotateS f rest)
  end.

(** [map] of the [SimpleDocStream] functor. *)
Definition map {B : Type} (f : A -> B) : SimpleDocStream A -> SimpleDocStream B :=
  reAnnotateS f.

(** [foldMap(M)(f)] for a monoid given by its [empty] and [concat]. *)
Fixpoint foldMap {M : Type} (empty : M) (concat : M -> M -> M) (f : A -> M)
  (fa : SimpleDocStream A) : M :=
  match fa with
  | SFail => empty
  | SEmpty => empty
  | SChar _ rest => foldMap empty concat f rest
  | SText _ rest => foldMap empty concat f rest
  | SLine _ rest => foldMap empty concat f rest
  | SAnnPush a rest => concat (f a) (foldMap empty concat f rest)
  | SAnnPop rest => foldMap empty concat f rest
  end.

(** The result type [SimpleDocStream<void>] is kept general. *)
Fixpoint unAnnotateS {B : Type} (stream : SimpleDocStream A) : SimpleDocStream B :=
  match stream with
  | SFail => SFail
  | SEmpty => SEmpty
  | SChar c rest => SChar c (unAnnotateS rest)
  | SText t rest => SText t (unAnnotateS rest)
  | SLine i rest => SLine i (unAnnotateS rest)
  | SAnnPop rest => unAnnotateS rest
  | SAnnPush _ rest => unAnnotateS rest
  end.

(** The local [go] of [alterAnnotationS].  An [SAnnPop] met with an empty
    stack calls [absurd], which throws: [None]. *)
Fixpoint alterAnnotationS_go {B : Type} (f : A -> option B)
  (stack : list AnnotationRemoval) (stream : SimpleDocStream A)
  : option (SimpleDocStream B) :=
  match stream with
  | SFail => Some SFail
  | SEmpty => Some SEmpty
  | SChar c rest => option_map (SChar c) (alterAnnotationS_go f stack rest)
  | SText t rest => option_map (SText t) (alterAnnotationS_go f stack rest)
  | SLine i rest => option_map (SLine i) (alterAnnotationS_go f stack rest)
  | SAnnPush a rest =>
      match f a with
      | None => alterAnnotationS_go f (Remove :: stack) rest
      | Some b => option_map (SAnnPush b) (alterAnnotationS_go f (DontRemove :: stack) rest)
      end
  | SAnnPop rest =>
      match stack with
      | [] => None
      | annRemoval :: stack_ =>
          match annRemoval with
          | DontRemove => option_map SAnnPop (alterAnnotationS_go f stack_ rest)
          | Remove => alterAnnotationS_go f stack_ rest
          end
      end
  end.

Definition alterAnnotationS {B : Type} (f : A -> option B)
  : SimpleDocStream A -> option (SimpleDocStream B) :=
  alterAnnotationS_go f [].

(** [RA.reduceRight(stream, (_, curr) => SLine(0, curr))] *)
Definition prependEmptyLines (withheldLines : list Z) (stream : SimpleDocStream A)
  : SimpleDocStream A :=
  fold_right (fun _ curr => SLine 0 curr) stream withheldLines.

Definition commitWhitespace (withheldLines : list Z) (withheldSpaces : Z)
  (stream : SimpleDocStream A) : SimpleDocStream A :=
  match withheldLines with
  | [] =>
      if withheldSpaces =? 0 then stream
      else if withheldSpaces =? 1 then SChar " " stream
      else SText (R.foldS (repeat " " (Z.to_nat withheldSpaces))) stream
  | i :: rest => prependEmptyLines rest (SLine (i + withheldSpaces) stream)
  end.

(** The local [go] of [removeTrailingWhitespace].  An [SAnnPop] met in the
    [RecordedWhitespace] state calls [absurd]: [None]. *)
Fixpoint removeTrailingWhitespace_go (state : WhitespaceStrippingState)
  (stream : SimpleDocStream A) {struct stream} : option (SimpleDocStream A) :=
  match state with
  | AnnotationLevel level =>
      match stream with
      | SFail => Some SFail
      | SEmpty => Some SEmpty
      | SChar c rest => option_map (SChar c) (removeTrailingWhitespace_go state rest)
      | SText t rest => option_map (SText t) (removeTrailingWhitespace_go state rest)
      | SLine i rest => option_map (SLine i) (removeTrailingWhitespace_go state rest)
      | SAnnPush a rest =>
          option_map (SAnnPush a)
            (removeTrailingWhitespace_go (AnnotationLevel (level + 1)) rest)
      | SAnnPop rest =>
          if 1 <? level
          then option_map SAnnPop
                 (removeTrailingWhitespace_go (AnnotationLevel (level - 1)) rest)
          else option_map SAnnPop
                 (removeTrailingWhitespace_go (RecordedWhitespace [] 0) rest)
      end
  | RecordedWhitespace withheldLines withheldSpaces =>
      match stream with
      | SFail => Some SFail
      | SEmpty => Some (prependEmptyLines withheldLines SEmpty)
      | SChar c rest =>
          if String.eqb c " "
          then removeTrailingWhitespace_go
                 (RecordedWhitespace withheldLines (withheldSpaces + 1)) rest
          else option_map
                 (fun r => commitWhitespace withheldLines withheldSpaces (SChar c r))
                 (removeTrailingWhitespace_go (RecordedWhitespace [] 0) rest)
      | SText t rest =>
          let stripped := stripEndSpaces t in
          let strippedLength := strlen stripped in
          let trailingLength := strlen t - strippedLength in
          let isOnlySpace := strippedLength =? 0 in
          if isOnlySpace
          then removeTrailingWhitespace_go
                 (RecordedWhitespace withheldLines (withheldSpaces + strlen t)) rest
          else option_map
                 (fun r => commitWhitespace withheldLines withheldSpaces (SText stripped r))
                 (removeTrailingWhitespace_go (RecordedWhitespace [] trailingLength) rest)
      | SLine i rest =>
          removeTrailingWhitespace_go (RecordedWhitespace (i :: withheldLines) 0) rest
      | SAnnPush a rest =>
          option_map
            (fun r => commitWhitespace withheldLines withheldSpaces (SAnnPush a r))
            (removeTrailingWhitespace_go (AnnotationLevel 1) rest)
      | SAnnPop _ => None
      end
  end.

Definition removeTrailingWhitespace (stream : SimpleDocStream A)
  : option (SimpleDocStream A) :=
  removeTrailingWhitespace_go (RecordedWhitespace [] 0) stream.

End Utils.

End SDS.

(* ===================================================================== *)
(** * Doc.ts: annotation utilities and the remaining combinators *)
(* ===================================================================== *)

Module DU.

Section Annotations.
Context {A B : Type}.

(** The local [go] of [alterAnnotations];
    [pipe(f(ann), RA.reduceRight(go(x), Annotated))] nests one [Annotated]
    node per element of [f(ann)], the first outermost. *)
Fixpoint alterAnnotations (f : A -> list B) (x : Doc A) : Doc B :=
  match x with
  | Fail => Fail
  | Empty => Empty
  | Char c => Char c
  | Text t => Text t
  | Line => Line
  | FlatAlt x y => FlatAlt (alterAnnotations f x) (alterAnnotations f y)
  | Cat x y => Cat (alterAnnotations f x) (alterAnnotations f y)
  | Nest i x => Nest i (alterAnnotations f x)
  | Union x y => Union (alterAnnotations f x) (alterAnnotations f y)
  | Column g => Column (fun n => alterAnnotations f (g n))
  | WithPageWidth g => WithPageWidth (fun w => alterAnnotations f (g w))
  | Nesting g => Nesting (fun n => alterAnnotations f (g n))
  | Annotated ann x => fold_right Annotated (alterAnnotations f x) (f ann)
  end.

(** [alterAnnotations(constant([]))] *)
Definition unAnnotate : Doc A -> Doc B := alterAnnotations (fun _ => []).

(** [alterAnnotations(flow(f, RA.of))] *)
Definition reAnnotate (f : A -> B) : Doc A -> Doc B := alterAnnotations (fun a => [f a]).

Definition map (f : A -> B) : Doc A -> Doc B := reAnnotate f.

End Annotations.

Section Combinators.
Context {A : Type}.

Definition annotate (ann : A) (x : Doc A) : Doc A := Annotated ann x.

Definition fill (lw : Z) (x : Doc A) : Doc A :=
  D.width (fun w => D.spaces (lw - w)) x.

Definition fillBreak (lw : Z) (x : Doc A) : Doc A :=
  D.width (fun w => if lw <? w then D.nest lw D.lineBreak else D.spaces (lw - w)) x.

(** [RA.mapWithIndex(f)]: [f] receives the index of each element. *)
Fixpoint mapWithIndex_from {X Y : Type} (i : nat) (f : nat -> X -> Y) (l : list X)
  : list Y :=
  match l with
  | [] => []
  | x :: l' => f i x :: mapWithIndex_from (S i) f l'
  end.

Definition mapWithIndex {X Y : Type} (f : nat -> X -> Y) (l : list X) : list Y :=
  mapWithIndex_from 0 f l.

(** [RA.mapWithIndex((i, x) => docs.length - 1 === i ? x : Cat(x, punctuator))] *)
Definition punctuate (punctuator : Doc A) (docs : list (Doc A)) : list (Doc A) :=
  mapWithIndex
    (fun i x => if Z.of_nat (length docs) - 1 =? Z.of_nat i then x else Cat x punctuator)
    docs.

Definition surround (doc left right : Doc A) : Doc A := Cat left (Cat doc right).

End Combinators.

End DU.

(* ===================================================================== *)
(** * Predicates and reference functions used in the statements *)
(* ===================================================================== *)

Section Statements.
Context {A : Type}.

(** [group] as the specification words it (section 4.4), to be compared with
    [D.group]: a [FlatAlt] consults its second component, a [Union] is
    returned unchanged, anything else consults itself. *)
Definition group_described (d : Doc A) : Doc A :=
  match d with
  | FlatAlt a b =>
      match F.changesUponFlattening b with
      | Flattened b' => Union b' a
      | AlreadyFlat => Union b a
      | NeverFlat => a
      end
  | Union _ _ => d
  | _ =>
      match F.changesUponFlattening d with
      | Flattened d' => Union d' d
      | AlreadyFlat => d
      | NeverFlat => d
      end
  end.

(** Annotation markers along a successor chain, with [depth] pushes open.
    [annBalanced]: every pop closes an open push and nothing is open where
    the chain stops, whether at [SEmpty] or at [SFail]. *)
Fixpoint annBalanced (depth : nat) (s : SimpleDocStream A) : bool :=
  match s with
  | SFail => Nat.eqb depth 0
  | SEmpty => Nat.eqb depth 0
  | SChar _ r => annBalanced depth r
  | SText _ r => annBalanced depth r
  | SLine _ r => annBalanced depth r
  | SAnnPush _ r => annBalanced (S depth) r
  | SAnnPop r =>
      match depth with
      | O => false
      | S depth' => annBalanced depth' r
      end
  end.

(** [annNested]: every pop closes an open push, and nothing is open where the
    chain stops at [SEmpty]; a chain cut short by [SFail] may stop with
    pushes open. *)
Fixpoint annNested (depth : nat) (s : SimpleDocStream A) : bool :=
  match s with
  | SFail => true
  | SEmpty => Nat.eqb depth 0
  | SChar _ r => annNested depth r
  | SText _ r => annNested depth r
  | SLine _ r => annNested depth r
  | SAnnPush _ r => annNested (S depth) r
  | SAnnPop r =>
      match depth with
      | O => false
      | S depth' => annNested depth' r
      end
  end.

(** A stream all of whose [SLine]s have indentation 0 and which has no
    annotation marker. *)
Fixpoint compactStream (s : SimpleDocStream A) : bool :=
  match s with
  | SFail => true
  | SEmpty => true
  | SChar _ r => compactStream r
  | SText _ r => compactStream r
  | SLine i r => (i =? 0) && compactStream r
  | SAnnPush _ _ => false
  | SAnnPop _ => false
  end.

(** Does the successor chain reach [SFail]? *)
Fixpoint containsSFail (s : SimpleDocStream A) : bool :=
  match s with
  | SFail => true
  | SEmpty => false
  | SChar _ r => containsSFail r
  | SText _ r => containsSFail r
  | SLine _ r => containsSFail r
  | SAnnPush _ r => containsSFail r
  | SAnnPop r => containsSFail r
  end.

(** The text of a stream read left to right: each character, each text, a
    newline followed by [i] spaces for each [SLine i], nothing for the
    annotation markers. *)
Fixpoint streamText (s : SimpleDocStream A) : string :=
  match s with
  | SFail => EmptyString
  | SEmpty => EmptyString
  | SChar c r => (c ++ streamText r)%string
  | SText t r => (t ++ streamText r)%string
  | SLine i r =>
      (R.newline ++ String.concat EmptyString (repeat " " (Z.to_nat i)) ++ streamText r)%string
  | SAnnPush _ r => streamText r
  | SAnnPop r => streamText r
  end.

(** [AlreadyFlat] documents are exactly those built from [Fail], [Empty],
    [Char], [Text], [Cat], [Nest] and [Annotated]. *)
Fixpoint staticDoc (d : Doc A) : bool :=
  match d with
  | Fail | Empty | Char _ | Text _ => true
  | Cat x y => staticDoc x && staticDoc y
  | Nest _ x => staticDoc x
  | Annotated _ x => staticDoc x
  | _ => false
  end.

(** A pipeline is [laidOut] when, from some budget on, the transcription
    [L.best_fuel] returns the value of [L.best] at every nesting level and
    column. *)
Definition laidOut (fits : L.FittingPredicate) (pw : PageWidth)
  (p : LayoutPipeline A) : Prop :=
  forall nl cc, exists n, forall m, (n <= m)%nat ->
    L.best_fuel fits pw m nl cc p = Some (L.best fits pw nl cc p).

End Statements.

(** The lines of an expected rendering, joined by newlines. *)
Definition unlines (ls : list string) : string := String.concat R.newline ls.

(** The constructor invariants of section 3.2 for [Char] and [Text]. *)
Fixpoint hasNewline (s : string) : bool :=
  match s with
  | EmptyString => false
  | String c s' => Ascii.eqb c (ascii_of_nat 10) || hasNewline s'
  end.

Definition validChar (c : string) : bool :=
  Nat.eqb (String.length c) 1 && negb (hasNewline c).

Definition validText (t : string) : bool :=
  Nat.leb 2 (String.length t) && negb (hasNewline t).

(** Every [Char] and [Text] node of a document, including those a reactive
    producer can return, satisfies its invariant. *)
Fixpoint nodesValid {A : Type} (d : Doc A) : Prop :=
  match d with
  | Fail => True
  | Empty => True
  | Char c => validChar c = true
  | Text t => validText t = true
  | Line => True
  | FlatAlt x y => nodesValid x /\ nodesValid y
  | Cat x y => nodesValid x /\ nodesValid y
  | Nest _ x => nodesValid x
  | Union x y => nodesValid x /\ nodesValid y
  | Column f => forall n, nodesValid (f n)
  | WithPageWidth f => forall w, nodesValid (f w)
  | Nesting f => forall n, nodesValid (f n)
  | Annotated _ x => nodesValid x
  end.

(** The documents of the docstrings of [layoutCompact] and [layoutSmart]. *)
Definition page (w : Z) : LayoutOptions := {| pageWidth := AvailablePerLine w 1 |}.

Definition lorem : Doc unit :=
  D.hang 4 (D.vsep [D.text "lorem"; D.text "ipsum";
                    D.hang 4 (D.vsep [D.text "dolor"; D.text "sit"])]).

Definition fun_ (d : Doc unit) : Doc unit :=
  D.hcat [D.hang 2 (D.hcat [D.text "fun("; D.softLineBreak; d]); D.text ")"].

Definition funs : Doc unit :=
  fun_ (fun_ (fun_ (fun_ (fun_
    (D.align (D.list [D.text "abcdef"; D.text "ghijklm"])))))).

(** Two documents are [docEquiv] when they have the same shape and their
    reactive producers return [docEquiv] documents on every input. *)
Inductive docEquiv {A : Type} : Doc A -> Doc A -> Prop :=
| eqFail : docEquiv Fail Fail
| eqEmpty : docEquiv Empty Empty
| eqChar c : docEquiv (Char c) (Char c)
| eqText t : docEquiv (Text t) (Text t)
| eqLine : docEquiv Line Line
| eqFlatAlt x x' y y' :
    docEquiv x x' -> docEquiv y y' -> docEquiv (FlatAlt x y) (FlatAlt x' y')
| eqCat x x' y y' :
    docEquiv x x' -> docEquiv y y' -> docEquiv (Cat x y) (Cat x' y')
| eqNest i x x' : docEquiv x x' -> docEquiv (Nest i x) (Nest i x')
| eqUnion x x' y y' :
    docEquiv x x' -> docEquiv y y' -> docEquiv (Union x y) (Union x' y')
| eqColumn f g : (forall n, docEquiv (f n) (g n)) -> docEquiv (Column f) (Column g)
| eqWithPageWidth f g :
    (forall w, docEquiv (f w) (g w)) -> docEquiv (WithPageWidth f) (WithPageWidth g)
| eqNesting f g : (forall n, docEquiv (f n) (g n)) -> docEquiv (Nesting f) (Nesting g)
| eqAnnotated a x x' : docEquiv x x' -> docEquiv (Annotated a x) (Annotated a x').

(* ===================================================================== *)
(** * Further predicates and reference functions *)
(* ===================================================================== *)

Section MoreStatements.
Context {A : Type}.

(** Columns taken by the first line of a stream: up to the first [SLine],
    [SEmpty] or [SFail]. *)
Fixpoint firstLineWidth (s : SimpleDocStream A) : Z :=
  match s with
  | SFail => 0
  | SEmpty => 0
  | SChar _ r => 1 + firstLineWidth r
  | SText t r => strlen t + firstLineWidth r
  | SLine _ _ => 0
  | SAnnPush _ r => firstLineWidth r
  | SAnnPop r => firstLineWidth r
  end.


(** A stream without [SLine]. *)
Fixpoint noSLine (s : SimpleDocStream A) : bool :=
  match s with
  | SFail => true
  | SEmpty => true
  | SChar _ r => noSLine r
  | SText _ r => noSLine r
  | SLine _ _ => false
  | SAnnPush _ r => noSLine r
  | SAnnPop r => noSLine r
  end.

(** A stream without annotation markers. *)
Fixpoint unmarked (s : SimpleDocStream A) : bool :=
  match s with
  | SFail => true
  | SEmpty => true
  | SChar _ r => unmarked r
  | SText _ r => unmarked r
  | SLine _ r => unmarked r
  | SAnnPush _ _ => false
  | SAnnPop _ => false
  end.

(** A stream without [SAnnPop]. *)
Fixpoint noSAnnPop (s : SimpleDocStream A) : bool :=
  match s with
  | SFail => true
  | SEmpty => true
  | SChar _ r => noSAnnPop r
  | SText _ r => noSAnnPop r
  | SLine _ r => noSAnnPop r
  | SAnnPush _ r => noSAnnPop r
  | SAnnPop _ => false
  end.

(** With [depth] pushes open, every [SAnnPop] of the chain finds a push to
    close.  Nothing is asked of the pushes still open at the end. *)
Fixpoint popsMatched (depth : nat) (s : SimpleDocStream A) : bool :=
  match s with
  | SFail => true
  | SEmpty => true
  | SChar _ r => popsMatched depth r
  | SText _ r => popsMatched depth r
  | SLine _ r => popsMatched depth r
  | SAnnPush _ r => popsMatched (S depth) r
  | SAnnPop r =>
      match depth with
      | O => false
      | S depth' => popsMatched depth' r
      end
  end.

(** The stream with [f] applied to every annotation and every node kept. *)
Fixpoint mapAnnotations {B : Type} (f : A -> B) (s : SimpleDocStream A)
  : SimpleDocStream B :=
  match s with
  | SFail => SFail
  | SEmpty => SEmpty
  | SChar c r => SChar c (mapAnnotations f r)
  | SText t r => SText t (mapAnnotations f r)
  | SLine i r => SLine i (mapAnnotations f r)
  | SAnnPush a r => SAnnPush (f a) (mapAnnotations f r)
  | SAnnPop r => SAnnPop (mapAnnotations f r)
  end.

(** A document without [Line], [FlatAlt] and [Union] nodes, also in what its
    reactive producers return. *)
Fixpoint flatDoc (d : Doc A) : Prop :=
  match d with
  | Fail => True
  | Empty => True
  | Char _ => True
  | Text _ => True
  | Line => False
  | FlatAlt _ _ => False
  | Cat x y => flatDoc x /\ flatDoc y
  | Nest _ x => flatDoc x
  | Union _ _ => False
  | Column f => forall n, flatDoc (f n)
  | WithPageWidth f => forall w, flatDoc (f w)
  | Nesting f => forall n, flatDoc (f n)
  | Annotated _ x => flatDoc x
  end.

(** A document without [Annotated] nodes, also in what its reactive
    producers return. *)
Fixpoint noAnnotated (d : Doc A) : Prop :=
  match d with
  | Fail => True
  | Empty => True
  | Char _ => True
  | Text _ => True
  | Line => True
  | FlatAlt x y => noAnnotated x /\ noAnnotated y
  | Cat x y => noAnnotated x /\ noAnnotated y
  | Nest _ x => noAnnotated x
  | Union x y => noAnnotated x /\ noAnnotated y
  | Column f => forall n, noAnnotated (f n)
  | WithPageWidth f => forall w, noAnnotated (f w)
  | Nesting f => forall n, noAnnotated (f n)
  | Annotated _ _ => False
  end.

(** A document in which the first alternative of every [Union] is flat, as
    in the unions that [softLine], [softLineBreak] and [group] build. *)
Fixpoint unionsFlat (d : Doc A) : Prop :=
  match d with
  | Fail => True
  | Empty => True
  | Char _ => True
  | Text _ => True
  | Line => True
  | FlatAlt x y => unionsFlat x /\ unionsFlat y
  | Cat x y => unionsFlat x /\ unionsFlat y
  | Nest _ x => unionsFlat x
  | Union x y => flatDoc x /\ unionsFlat y
  | Column f => forall n, unionsFlat (f n)
  | WithPageWidth f => forall w, unionsFlat (f w)
  | Nesting f => forall n, unionsFlat (f n)
  | Annotated _ x => unionsFlat x
  end.

(** A document whose layouts cannot reach [SFail]: the first alternative of
    every [Union] is flat, and there is no [Fail] node outside such a first
    alternative and outside the second component of a [FlatAlt], which the
    layout engine never visits. *)
Fixpoint safeDoc (d : Doc A) : Prop :=
  match d with
  | Fail => False
  | Empty => True
  | Char _ => True
  | Text _ => True
  | Line => True
  | FlatAlt x y => safeDoc x /\ unionsFlat y
  | Cat x y => safeDoc x /\ safeDoc y
  | Nest _ x => safeDoc x
  | Union x y => flatDoc x /\ safeDoc y
  | Column f => forall n, safeDoc (f n)
  | WithPageWidth f => forall w, safeDoc (f w)
  | Nesting f => forall n, safeDoc (f n)
  | Annotated _ x => safeDoc x
  end.

(** A fitting predicate that rejects every stream whose first line reaches
    [SFail]. *)
Definition fitsRejectsFailure (fits : L.FittingPredicate (A := A)) : Prop :=
  forall nl cc iy s, fits nl cc iy s = true -> L.failsOnFirstLine s = false.

(** A fitting predicate that does not look at annotation values. *)
Definition fitsIgnoresAnnotations {B : Type} (f : A -> B)
  (fitsA : L.FittingPredicate (A := A)) (fitsB : L.FittingPredicate (A := B)) : Prop :=
  forall nl cc iy s, fitsB nl cc iy (mapAnnotations f s) = fitsA nl cc iy s.

End MoreStatements.


(** Did the call return (rather than raise)? *)
Definition returned {X : Type} (r : option X) : bool :=
  match r with
  | Some _ => true
  | None => false
  end.

(** [n] spaces and [n] newlines as strings. *)
Definition spacesText (n : nat) : string := String.concat EmptyString (repeat " " n).

Fixpoint newlinesText (n : nat) : string :=
  match n with
  | O => EmptyString
  | S n' => String (ascii_of_nat 10) (newlinesText n')
  end.

(** A text with the trailing spaces of each of its lines removed, read
    character by character: [lines] newlines and [pending] spaces have been
    seen since the last character that is neither. *)
Fixpoint rstripFrom (lines pending : nat) (t : string) : string :=
  match t with
  | EmptyString => newlinesText lines
  | String c t' =>
      if Ascii.eqb c " "%char then rstripFrom lines (S pending) t'
      else if Ascii.eqb c (ascii_of_nat 10) then rstripFrom (S lines) O t'
      else (newlinesText lines ++ spacesText pending
            ++ String c (rstripFrom O O t'))%string
  end.

Definition rstripLines (t : string) : string := rstripFrom O O t.

(** A text that is not empty and whose last character is not a space. *)
Fixpoint inkEnd (u : string) : bool :=
  match u with
  | EmptyString => false
  | String c EmptyString => negb (Ascii.eqb c " "%char)
  | String _ u' => inkEnd u'
  end.

(** The spaces withheld before the next character: those since the last
    withheld line break plus that line's indentation, if there is one. *)
Definition pendingSpaces (withheldLines : list Z) (withheldSpaces : Z) : nat :=
  Z.to_nat match withheldLines with
           | [] => withheldSpaces
           | i :: _ => i + withheldSpaces
           end.

(** A stream of text alone: no annotation marker, no [SFail], no negative
    indentation, one character other than a newline in each [SChar], no
    newline in an [SText]. *)
Fixpoint plainStream {A : Type} (s : SimpleDocStream A) : bool :=
  match s with
  | SFail => false
  | SEmpty => true
  | SChar c r => validChar c && plainStream r
  | SText t r => negb (hasNewline t) && plainStream r
  | SLine i r => (0 <=? i) && plainStream r
  | SAnnPush _ _ => false
  | SAnnPop _ => false
  end.

(* ===================================================================== *)
(** * Flatten: results *)
(* ===================================================================== *)

Section FlattenFacts.
Context {A : Type}.
Implicit Types (d x y : Doc A).

Lemma changesUponFlattening_Column (f : Z -> Doc A) :
  F.changesUponFlattening (Column f) = Flattened (Column (fun n => F.flatten (f n))).
Proof. reflexivity. Qed.

Lemma changesUponFlattening_WithPageWidth (f : PageWidth -> Doc A) :
  F.changesUponFlattening (WithPageWidth f)
  = Flattened (WithPageWidth (fun w => F.flatten (f w))).
Proof. reflexivity. Qed.

(** C2 (code defect).  For every producer [f], [changesUponFlattening] of
    [Column f] and of [WithPageWidth f] wraps the same constructor around
    [flatten] composed with [f], but of [Nesting f] it returns a [Column]
    node, not the [Nesting] node the claim states: the flattened producer
    will be handed the current column instead of the nesting level. *)
Theorem changesUponFlattening_Nesting_yields_Column
  (f : Z -> Doc A) (g : PageWidth -> Doc A) :
  F.changesUponFlattening (Column f) = Flattened (Column (fun n => F.flatten (f n)))
  /\ F.changesUponFlattening (WithPageWidth g)
     = Flattened (WithPageWidth (fun w => F.flatten (g w)))
  /\ F.changesUponFlattening (Nesting f) = Flattened (Column (fun n => F.flatten (f n)))
  /\ F.changesUponFlattening (Nesting f) <> Flattened (Nesting (fun n => F.flatten (f n))).
Proof.
  repeat split; try reflexivity.
  simpl. discriminate.
Qed.

End FlattenFacts.

Section FlattenAlgebra.
Context {A : Type}.
Implicit Types (d x y : Doc A).

(** C9.  [flatten] is idempotent: for every document [d],
    [flatten (flatten d)] equals [flatten d].  The producers of reactive
    nodes are compared as functions (extensionally). *)
Theorem flatten_idempotent d : F.flatten (F.flatten d) = F.flatten d.
Proof.
  induction d as [ | | c | t | | x IHx y IHy | x IHx y IHy | j x IHx
                 | x IHx y IHy | f IHf | f IHf | f IHf | a x IHx ]; simpl;
    try reflexivity; try assumption.
  - now rewrite IHx, IHy.
  - now rewrite IHx.
  - f_equal. extensionality n. apply IHf.
  - f_equal. extensionality w. apply IHf.
  - f_equal. extensionality n. apply IHf.
  - now rewrite IHx.
Qed.

(** The same without comparing producers as functions. *)
Lemma flatten_idempotent_docEquiv d : docEquiv (F.flatten (F.flatten d)) (F.flatten d).
Proof.
  induction d as [ | | c | t | | x IHx y IHy | x IHx y IHy | j x IHx
                 | x IHx y IHy | f IHf | f IHf | f IHf | a x IHx ]; simpl;
    try assumption; now constructor.
Qed.

(** A document classified [AlreadyFlat] is a fixed point of [flatten]. *)
Lemma AlreadyFlat_flatten_id d :
  F.changesUponFlattening d = AlreadyFlat -> F.flatten d = d.
Proof.
  induction d as [ | | c | t | | x IHx y IHy | x IHx y IHy | j x IHx
                 | x IHx y IHy | f IHf | f IHf | f IHf | a x IHx ]; simpl;
    try reflexivity; try discriminate.
  - destruct (F.changesUponFlattening x) eqn:Ex;
      destruct (F.changesUponFlattening y) eqn:Ey; try discriminate.
    intros _. now rewrite IHx, IHy.
  - destruct (F.changesUponFlattening x) eqn:Ex; simpl; try discriminate.
    intros _. now rewrite IHx.
  - destruct (F.changesUponFlattening x) eqn:Ex; simpl; try discriminate.
    intros _. now rewrite IHx.
Qed.

Lemma AlreadyFlat_iff_static d :
  F.changesUponFlattening d = AlreadyFlat <-> staticDoc d = true.
Proof.
  induction d as [ | | c | t | | x IHx y IHy | x IHx y IHy | j x IHx
                 | x IHx y IHy | f IHf | f IHf | f IHf | a x IHx ]; simpl;
    try (split; [reflexivity | reflexivity]);
    try (split; discriminate).
  - rewrite andb_true_iff, <- IHx, <- IHy.
    destruct (F.changesUponFlattening x), (F.changesUponFlattening y);
      split; try discriminate; try tauto;
      intros [H1 H2]; discriminate.
  - rewrite <- IHx. destruct (F.changesUponFlattening x); simpl;
      split; try discriminate; reflexivity.
  - rewrite <- IHx. destruct (F.changesUponFlattening x); simpl;
      split; try discriminate; reflexivity.
Qed.

(** C4.  For every document [d], [group d] is what section 4.4 describes:
    for [d = FlatAlt a b] it is [Union b' a], [Union b a] or [a] as
    [changesUponFlattening b] is [Flattened b'], [AlreadyFlat] or
    [NeverFlat]; a [Union] is returned unchanged; any other [d] becomes
    [Union d' d] when [changesUponFlattening d = Flattened d'] and stays [d]
    when it is [AlreadyFlat] or [NeverFlat]. *)
Theorem group_as_described d : D.group d = group_described d.
Proof.
  destruct d; reflexivity.
Qed.

Lemma group_FlatAlt (a b : Doc A) :
  D.group (FlatAlt a b) =
  match F.changesUponFlattening b with
  | Flattened b' => Union b' a
  | AlreadyFlat => Union b a
  | NeverFlat => a
  end.
Proof. reflexivity. Qed.

Lemma group_Union x y : D.group (Union x y) = Union x y.
Proof. reflexivity. Qed.

Lemma group_other d :
  (forall a b : Doc A, d <> FlatAlt a b) -> (forall x y, d <> Union x y) ->
  D.group d =
  match F.changesUponFlattening d with
  | Flattened d' => Union d' d
  | AlreadyFlat => d
  | NeverFlat => d
  end.
Proof.
  intros Hf Hu. destruct d; try reflexivity.
  - exfalso. eapply Hf. reflexivity.
  - exfalso. eapply Hu. reflexivity.
Qed.

End FlattenAlgebra.

(* ===================================================================== *)
(** * Layout: the equations of [best] and agreement with the transcription *)
(* ===================================================================== *)

Section BestEquations.
Context {A : Type}.
Variable fits : L.FittingPredicate (A := A).
Variable pw : PageWidth.
Implicit Types (x y d : Doc A) (ds p : LayoutPipeline A) (nl cc i j : Z).

Local Abbreviation best := (L.best fits pw).
Local Abbreviation best_fuel := (L.best_fuel fits pw).
Local Abbreviation laidOut := (laidOut fits pw).

(** Each arm of the source's [best], as an equation of [L.best]. *)
Lemma best_Nil nl cc : best nl cc Nil = SEmpty.
Proof. reflexivity. Qed.

Lemma best_UndoAnn nl cc ds : best nl cc (UndoAnn ds) = SAnnPop (best nl cc ds).
Proof. reflexivity. Qed.

Lemma best_Fail nl cc i ds : best nl cc (Cons i Fail ds) = SFail.
Proof. reflexivity. Qed.

Lemma best_Empty nl cc i ds : best nl cc (Cons i Empty ds) = best nl cc ds.
Proof. reflexivity. Qed.

Lemma best_Char nl cc i c ds :
  best nl cc (Cons i (Char c) ds) = SChar c (best nl (cc + 1) ds).
Proof. reflexivity. Qed.

Lemma best_Text nl cc i t ds :
  best nl cc (Cons i (Text t) ds) = SText t (best nl (cc + strlen t) ds).
Proof. reflexivity. Qed.

Lemma best_Line nl cc i ds :
  best nl cc (Cons i Line ds)
  = SLine (L.lineIndentation i (best i i ds)) (best i i ds).
Proof. reflexivity. Qed.

Lemma best_FlatAlt nl cc i x y ds :
  best nl cc (Cons i (FlatAlt x y) ds) = best nl cc (Cons i x ds).
Proof. reflexivity. Qed.

Lemma best_Cat nl cc i x y ds :
  best nl cc (Cons i (Cat x y) ds) = best nl cc (Cons i x (Cons i y ds)).
Proof. reflexivity. Qed.

Lemma best_Nest nl cc i j x ds :
  best nl cc (Cons i (Nest j x) ds) = best nl cc (Cons (i + j) x ds).
Proof. reflexivity. Qed.

Lemma best_Union nl cc i x y ds :
  best nl cc (Cons i (Union x y) ds)
  = L.selectNicer fits nl cc (best nl cc (Cons i x ds)) (best nl cc (Cons i y ds)).
Proof. reflexivity. Qed.

Lemma best_Column nl cc i f ds :
  best nl cc (Cons i (Column f) ds) = best nl cc (Cons i (f cc) ds).
Proof. reflexivity. Qed.

Lemma best_WithPageWidth nl cc i f ds :
  best nl cc (Cons i (WithPageWidth f) ds) = best nl cc (Cons i (f pw) ds).
Proof. reflexivity. Qed.

Lemma best_Nesting nl cc i f ds :
  best nl cc (Cons i (Nesting f) ds) = best nl cc (Cons i (f i) ds).
Proof. reflexivity. Qed.

Lemma best_Annotated nl cc i a x ds :
  best nl cc (Cons i (Annotated a x) ds)
  = SAnnPush a (best nl cc (Cons i x (UndoAnn ds))).
Proof. reflexivity. Qed.

(** Whatever the budgeted transcription returns is the value of [L.best]. *)
Lemma best_fuel_sound n : forall nl cc p s,
  best_fuel n nl cc p = Some s -> s = best nl cc p.
Proof.
  induction n as [ | n IH]; intros nl cc p s H; [discriminate | ].
  destruct p as [ | i d ds | ds]; simpl in H.
  - now inversion H.
  - destruct d; simpl in H;
      try (apply IH in H; exact H);
      try (destruct (best_fuel n _ _ ds) as [r | ] eqn:E; [ | discriminate];
           apply IH in E; inversion H; subst; reflexivity).
    + now inversion H.
    + destruct (best_fuel n nl cc (Cons i d1 ds)) as [sx | ] eqn:Ex; [ | discriminate].
      destruct (best_fuel n nl cc (Cons i d2 ds)) as [sy | ] eqn:Ey; [ | discriminate].
      apply IH in Ex. apply IH in Ey. inversion H; subst. reflexivity.
    + destruct (best_fuel n nl cc (Cons i d (UndoAnn ds))) as [r | ] eqn:E;
        [ | discriminate].
      apply IH in E. inversion H; subst. reflexivity.
  - destruct (best_fuel n nl cc ds) as [r | ] eqn:E; [ | discriminate].
    apply IH in E. inversion H; subst. reflexivity.
Qed.

Local Ltac step_with n :=
  exists (S n); intros [ | m] Hm; [lia | ]; simpl.

Lemma laidOut_Cons d : forall i ds, laidOut ds -> laidOut (Cons i d ds).
Proof.
  induction d as [ | | c | t | | x IHx y IHy | x IHx y IHy | j x IHx
                 | x IHx y IHy | f IHf | f IHf | f IHf | a x IHx ];
    intros i ds Hds nl cc.
  - exists 1%nat. intros [ | m] Hm; [lia | reflexivity].
  - destruct (Hds nl cc) as [n Hn]. step_with n. apply Hn. lia.
  - destruct (Hds nl (cc + 1)) as [n Hn]. step_with n.
    rewrite Hn by lia. reflexivity.
  - destruct (Hds nl (cc + strlen t)) as [n Hn]. step_with n.
    rewrite Hn by lia. reflexivity.
  - destruct (Hds i i) as [n Hn]. step_with n.
    rewrite Hn by lia. reflexivity.
  - destruct (IHx i ds Hds nl cc) as [n Hn]. step_with n. apply Hn. lia.
  - destruct (IHx i (Cons i y ds) (IHy i ds Hds) nl cc) as [n Hn].
    step_with n. apply Hn. lia.
  - destruct (IHx (i + j) ds Hds nl cc) as [n Hn]. step_with n. apply Hn. lia.
  - destruct (IHx i ds Hds nl cc) as [n1 H1].
    destruct (IHy i ds Hds nl cc) as [n2 H2].
    step_with (Nat.max n1 n2).
    rewrite H1 by lia. rewrite H2 by lia. reflexivity.
  - destruct (IHf cc i ds Hds nl cc) as [n Hn]. step_with n. apply Hn. lia.
  - destruct (IHf pw i ds Hds nl cc) as [n Hn]. step_with n. apply Hn. lia.
  - destruct (IHf i i ds Hds nl cc) as [n Hn]. step_with n. apply Hn. lia.
  - assert (Hu : laidOut (UndoAnn ds)).
    { intros nl' cc'. destruct (Hds nl' cc') as [n Hn]. step_with n.
      rewrite Hn by lia. reflexivity. }
    destruct (IHx i (UndoAnn ds) Hu nl cc) as [n Hn]. step_with n.
    rewrite Hn by lia. reflexivity.
Qed.

Lemma laidOut_all p : laidOut p.
Proof.
  induction p as [ | i d ds IH | ds IH].
  - intros nl cc. exists 1%nat. intros [ | m] Hm; [lia | reflexivity].
  - now apply laidOut_Cons.
  - intros nl cc. destruct (IH nl cc) as [n Hn]. step_with n.
    rewrite Hn by lia. reflexivity.
Qed.

(** The transcription terminates on every document, with the value of
    [L.layoutWadlerLeijen]. *)
Lemma layoutWadlerLeijen_fuel_total (doc : Doc A) :
  exists n, forall m, (n <= m)%nat ->
    L.layoutWadlerLeijen_fuel fits pw m doc = Some (L.layoutWadlerLeijen fits pw doc).
Proof. apply laidOut_all. Qed.

Lemma layoutWadlerLeijen_fuel_sound n (doc : Doc A) s :
  L.layoutWadlerLeijen_fuel fits pw n doc = Some s -> s = L.layoutWadlerLeijen fits pw doc.
Proof. apply best_fuel_sound. Qed.

End BestEquations.

(* ===================================================================== *)
(** * Layout: annotation markers *)
(* ===================================================================== *)

Section Annotations.
Context {A : Type}.
Implicit Types (d : Doc A) (s : SimpleDocStream A).

Lemma bestDoc_annNested (fits : L.FittingPredicate) (pw : PageWidth) d :
  forall i k depth,
    (forall nl cc, annNested depth (k nl cc) = true) ->
    forall nl cc, annNested depth (L.bestDoc fits pw d i k nl cc) = true.
Proof.
  induction d as [ | | c | t | | x IHx y IHy | x IHx y IHy | j x IHx
                 | x IHx y IHy | f IHf | f IHf | f IHf | a x IHx ];
    intros i k depth Hk nl cc; simpl.
  - reflexivity.
  - apply Hk.
  - apply Hk.
  - apply Hk.
  - apply Hk.
  - now apply IHx.
  - apply IHx. intros nl' cc'. now apply IHy.
  - now apply IHx.
  - unfold L.selectNicer.
    destruct (fits nl cc _ _); [now apply IHx | now apply IHy].
  - now apply IHf.
  - now apply IHf.
  - now apply IHf.
  - apply IHx. intros nl' cc'. simpl. apply Hk.
Qed.

Lemma layoutWadlerLeijen_annNested (fits : L.FittingPredicate) (pw : PageWidth) d :
  annNested 0 (L.layoutWadlerLeijen fits pw d) = true.
Proof.
  unfold L.layoutWadlerLeijen. simpl.
  apply bestDoc_annNested. reflexivity.
Qed.

(** The same for whatever the budgeted transcription returns. *)
Lemma layoutWadlerLeijen_fuel_annNested
  (fits : L.FittingPredicate) (pw : PageWidth) n d s :
  L.layoutWadlerLeijen_fuel fits pw n d = Some s -> annNested 0 s = true.
Proof.
  intros H. apply layoutWadlerLeijen_fuel_sound in H. subst s.
  apply layoutWadlerLeijen_annNested.
Qed.

(** On a chain that does not reach [SFail] the two readings coincide. *)
Lemma annNested_annBalanced s : forall depth,
  containsSFail s = false -> annNested depth s = annBalanced depth s.
Proof.
  induction s; intros depth H; simpl in *; try discriminate; auto.
  destruct depth; auto.
Qed.

End Annotations.

Section CompactFacts.
Context {A B : Type}.
Implicit Types (d : Doc A) (s : SimpleDocStream B).

Lemma scanDoc_compact d : forall (k : Z -> SimpleDocStream B),
  (forall col, compactStream (k col) = true) ->
  forall col, compactStream (L.scanDoc d k col) = true.
Proof.
  induction d as [ | | c | t | | x IHx y IHy | x IHx y IHy | j x IHx
                 | x IHx y IHy | f IHf | f IHf | f IHf | a x IHx ];
    intros k Hk col; simpl.
  - reflexivity.
  - apply Hk.
  - apply Hk.
  - apply Hk.
  - apply Hk.
  - now apply IHx.
  - apply IHx. intros col'. now apply IHy.
  - now apply IHx.
  - now apply IHy.
  - now apply IHf.
  - now apply IHf.
  - now apply IHf.
  - now apply IHx.
Qed.

Lemma scan_compact (docs : list (Doc A)) : forall col,
  compactStream (L.scan (B := B) col docs) = true.
Proof.
  induction docs as [ | d ds IH]; intros col; simpl.
  - reflexivity.
  - apply scanDoc_compact. exact IH.
Qed.

(** C7.  For every document, the stream [layoutCompact doc] has only
    [SLine] nodes of indentation 0 and no [SAnnPush] or [SAnnPop] node. *)
Theorem layoutCompact_compact d :
  compactStream (L.layoutCompact (B := B) d) = true.
Proof.
  unfold L.layoutCompact. apply scan_compact.
Qed.

Lemma compactStream_annBalanced s : compactStream s = true -> annBalanced 0 s = true.
Proof.
  induction s; simpl; intros H; try discriminate; auto.
  apply andb_true_iff in H. tauto.
Qed.

Lemma compactStream_annNested s : compactStream s = true -> annNested 0 s = true.
Proof.
  induction s; simpl; intros H; try discriminate; auto.
  apply andb_true_iff in H. tauto.
Qed.

(** The equations of the source's [scan]. *)
Lemma scan_Cat col x y (ds : list (Doc A)) :
  L.scan (B := B) col (Cat x y :: ds) = L.scan col (x :: y :: ds).
Proof. reflexivity. Qed.

Lemma scan_Union col x y (ds : list (Doc A)) :
  L.scan (B := B) col (Union x y :: ds) = L.scan col (y :: ds).
Proof. reflexivity. Qed.

Lemma scan_Line col (ds : list (Doc A)) :
  L.scan (B := B) col (Line :: ds) = SLine 0 (L.scan 0 ds).
Proof. reflexivity. Qed.

Lemma scan_Annotated col a x (ds : list (Doc A)) :
  L.scan (B := B) col (Annotated a x :: ds) = L.scan col (x :: ds).
Proof. reflexivity. Qed.

Lemma scan_Column col f (ds : list (Doc A)) :
  L.scan (B := B) col (Column f :: ds) = L.scan col (f col :: ds).
Proof. reflexivity. Qed.

Lemma scan_fuel_sound n : forall col (docs : list (Doc A)) s,
  L.scan_fuel (B := B) n col docs = Some s -> s = L.scan col docs.
Proof.
  induction n as [ | n IH]; intros col docs s H; [discriminate | ].
  destruct docs as [ | d ds]; simpl in H.
  - now inversion H.
  - destruct d; simpl in H;
      try (apply IH in H; exact H);
      try (destruct (L.scan_fuel n _ ds) as [r | ] eqn:E; [ | discriminate];
           apply IH in E; inversion H; subst; reflexivity).
    now inversion H.
Qed.

Local Ltac budget n := exists (S n); intros [ | m] Hm; [lia | ]; simpl.

Lemma scan_fuel_Cons d : forall (ds : list (Doc A)),
  (forall col, exists n, forall m, (n <= m)%nat ->
     L.scan_fuel (B := B) m col ds = Some (L.scan col ds)) ->
  forall col, exists n, forall m, (n <= m)%nat ->
     L.scan_fuel (B := B) m col (d :: ds) = Some (L.scan col (d :: ds)).
Proof.
  induction d as [ | | c | t | | x IHx y IHy | x IHx y IHy | j x IHx
                 | x IHx y IHy | f IHf | f IHf | f IHf | a x IHx ];
    intros ds Hds col.
  - exists 1%nat. intros [ | m] Hm; [lia | reflexivity].
  - destruct (Hds col) as [n Hn]. budget n. apply Hn. lia.
  - destruct (Hds (col + 1)) as [n Hn]. budget n. rewrite Hn by lia. reflexivity.
  - destruct (Hds (col + strlen t)) as [n Hn]. budget n.
    rewrite Hn by lia. reflexivity.
  - destruct (Hds 0) as [n Hn]. budget n. rewrite Hn by lia. reflexivity.
  - destruct (IHx ds Hds col) as [n Hn]. budget n. apply Hn. lia.
  - destruct (IHx (y :: ds) (IHy ds Hds) col) as [n Hn]. budget n. apply Hn. lia.
  - destruct (IHx ds Hds col) as [n Hn]. budget n. apply Hn. lia.
  - destruct (IHy ds Hds col) as [n Hn]. budget n. apply Hn. lia.
  - destruct (IHf col ds Hds col) as [n Hn]. budget n. apply Hn. lia.
  - destruct (IHf Unbounded ds Hds col) as [n Hn]. budget n. apply Hn. lia.
  - destruct (IHf 0 ds Hds col) as [n Hn]. budget n. apply Hn. lia.
  - destruct (IHx ds Hds col) as [n Hn]. budget n. apply Hn. lia.
Qed.

(** The transcription of [layoutCompact] terminates on every document, with
    the value of [L.layoutCompact]. *)
Lemma layoutCompact_fuel_total d :
  exists n, forall m, (n <= m)%nat ->
    L.layoutCompact_fuel (B := B) m d = Some (L.layoutCompact d).
Proof.
  apply scan_fuel_Cons. intros col. exists 1%nat.
  intros [ | m] Hm; [lia | reflexivity].
Qed.

Lemma layoutCompact_fuel_compact n d s :
  L.layoutCompact_fuel (B := B) n d = Some s -> compactStream s = true.
Proof.
  intros H. apply scan_fuel_sound in H. subst s. apply scan_compact.
Qed.

End CompactFacts.

Section LayoutResults.
Context {A : Type}.

(** C5 (as amended).  For every document and every page width, the stream
    of each layout entry point has well nested annotation markers: every
    [SAnnPop] closes an earlier open [SAnnPush], and no [SAnnPush] is open
    where the chain stops at [SEmpty].  (A chain that stops at [SFail] may
    leave pushes open.)  [layoutSmart] is covered in both revisions, and the
    stream of [layoutCompact] at any annotation type. *)
Theorem layouts_annNested (doc : Doc A) (options : LayoutOptions) :
  annNested 0 (L.layoutUnbounded doc) = true
  /\ annNested 0 (L.layoutPretty doc options) = true
  /\ annNested 0 (L.layoutSmart doc options) = true
  /\ annNested 0 (L.layoutSmart_fold doc options) = true
  /\ (forall B : Type, annNested 0 (L.layoutCompact (B := B) doc) = true).
Proof.
  unfold L.layoutUnbounded, L.layoutPretty, L.layoutSmart, L.layoutSmart_fold.
  destruct (pageWidth options) as [lw rf | ];
    repeat split; try apply layoutWadlerLeijen_annNested;
    intros B; apply compactStream_annNested; unfold L.layoutCompact; apply scan_compact.
Qed.

(** C6.  For every document [doc] with
    [changesUponFlattening doc = AlreadyFlat], [layoutUnbounded doc] and
    [layoutUnbounded (flatten doc)] are the same stream. *)
Theorem layoutUnbounded_AlreadyFlat (doc : Doc A) :
  F.changesUponFlattening doc = AlreadyFlat ->
  L.layoutUnbounded doc = L.layoutUnbounded (F.flatten doc).
Proof.
  intros H. now rewrite (AlreadyFlat_flatten_id doc H).
Qed.

End LayoutResults.

(** A document the hypothesis of C6 holds of, and the streams compared. *)
Lemma layoutUnbounded_AlreadyFlat_witness :
  F.changesUponFlattening (Cat (Char "a") (Nest 2 (Annotated tt (Text "bc")))) = AlreadyFlat
  /\ L.layoutUnbounded (Cat (Char "a") (Nest 2 (Annotated tt (Text "bc"))))
     = L.layoutUnbounded (F.flatten (Cat (Char "a") (Nest 2 (Annotated tt (Text "bc"))))).
Proof.
  split; [reflexivity | ].
  apply (layoutUnbounded_AlreadyFlat (Cat (Char "a") (Nest 2 (Annotated tt (Text "bc"))))).
  reflexivity.
Defined.

(** C5, counterexample to the claim as stated: laying out an annotated
    [Fail] gives a chain that stops at [SFail] with its [SAnnPush] open. *)
Lemma layoutUnbounded_annotated_Fail_unbalanced :
  L.layoutUnbounded (Annotated tt Fail) = SAnnPush tt SFail
  /\ annBalanced 0 (L.layoutUnbounded (Annotated tt Fail)) = false.
Proof. split; reflexivity. Qed.

(* ===================================================================== *)
(** * Layout: the fitness recursion of [layoutSmart] *)
(* ===================================================================== *)

Section SmartFits.
Context {A : Type}.
Implicit Types (r : SimpleDocStream A) (lw mnl w i : Z).

(** The [SLine] arm of [go], revision with [match]. *)
Lemma go_SLine lw mnl w i r :
  L.go lw mnl w (SLine i r)
  = if w <? 0 then false else if mnl <? i then L.go lw mnl (i - lw) r else true.
Proof. reflexivity. Qed.

(** The [SLine] arm of [go], revision with [fold]. *)
Lemma go_fold_SLine lw mnl w i r :
  L.go_fold lw mnl w (SLine i r)
  = if w <? 0 then false else if mnl <? i then L.go_fold lw mnl (lw - i) r else true.
Proof. reflexivity. Qed.

Lemma go_negative lw mnl w r : w < 0 -> L.go lw mnl w r = false.
Proof.
  intros H. apply Z.ltb_lt in H. destruct r; simpl; now rewrite H.
Qed.

(** In the revision with [match], a line indented deeper than
    [minNestingLevel] but left of the page width ends the check with
    [false], whatever follows it. *)
Lemma go_SLine_rejects lw mnl w i r :
  mnl < i -> i < lw -> L.go lw mnl w (SLine i r) = false.
Proof.
  intros Hm Hi. rewrite go_SLine.
  destruct (w <? 0); [reflexivity | ].
  apply Z.ltb_lt in Hm. rewrite Hm.
  apply go_negative. lia.
Qed.

(** In the revision with [fold], the check continues with the columns that
    remain on the next line. *)
Lemma go_fold_SLine_continues lw mnl w i r :
  0 <= w -> mnl < i -> L.go_fold lw mnl w (SLine i r) = L.go_fold lw mnl (lw - i) r.
Proof.
  intros Hw Hm. rewrite go_fold_SLine.
  apply Z.ltb_ge in Hw. rewrite Hw.
  apply Z.ltb_lt in Hm. now rewrite Hm.
Qed.

End SmartFits.

(** C1 (code defect).  In the revision of Layout.ts whose destructors are
    named [match], the fitness recursion of [layoutSmart] continues past an
    [SLine i r] with [minNestingLevel < i] at width [i - lineWidth], not at
    the [lw - i] columns that remain on the next line.  On a page of 80
    columns the document below (a [softLine] followed by two short lines
    nested by 2) therefore has its one-line start rejected: the check of the
    first alternative reaches [SLine 2] with width [2 - 80].  The revision
    with [fold] continues with [80 - 2] and keeps the first alternative. *)
Theorem layoutSmart_SLine_width_reversed :
  (forall (lw mnl w i : Z) (r : SimpleDocStream unit),
     L.go lw mnl w (SLine i r)
     = if w <? 0 then false else if mnl <? i then L.go lw mnl (i - lw) r else true)
  /\ L.fitsSmart 80 1 0 0 (Some 0)
       (SChar " " (SText "ab" (SLine 2 (SText "cd" (@SEmpty unit))))) = false
  /\ L.fitsSmart_fold 80 1 0 0 (Some 0)
       (SChar " " (SText "ab" (SLine 2 (SText "cd" (@SEmpty unit))))) = true
  /\ L.layoutSmart
       (Cat D.softLine (Nest 2 (Cat (Text "ab") (Cat Line (Text "cd")))))
       {| pageWidth := AvailablePerLine 80 1 |}
     = SLine 0 (SText "ab" (SLine 2 (SText "cd" (@SEmpty unit))))
  /\ L.layoutSmart_fold
       (Cat D.softLine (Nest 2 (Cat (Text "ab") (Cat Line (Text "cd")))))
       {| pageWidth := AvailablePerLine 80 1 |}
     = SChar " " (SText "ab" (SLine 2 (SText "cd" (@SEmpty unit)))).
Proof.
  split; [intros; reflexivity | ].
  repeat split; vm_compute; reflexivity.
Qed.

(* ===================================================================== *)
(** * Layout: what evaluating a [Union] builds *)
(* ===================================================================== *)

Section UnionEvaluation.
Context {A : Type}.
Variable fits : Z -> Z -> option Z -> SimpleDocStream A -> bool.
Variable pw : PageWidth.
Implicit Types (x y d : Doc A) (ds p : LayoutPipeline A) (nl cc i : Z).

(** The counting evaluation returns the stream of [L.best]. *)
Lemma cbv_bestDoc_value d : forall i k k',
  (forall nl cc, fst (k' nl cc) = k nl cc) ->
  forall nl cc, fst (CBV.bestDoc fits pw d i k' nl cc) = L.bestDoc fits pw d i k nl cc.
Proof.
  induction d as [ | | c | t | | x IHx y IHy | x IHx y IHy | j x IHx
                 | x IHx y IHy | f IHf | f IHf | f IHf | a x IHx ];
    intros i k k' Hk nl cc; simpl.
  - reflexivity.
  - apply Hk.
  - now rewrite Hk.
  - now rewrite Hk.
  - now rewrite Hk.
  - now apply IHx.
  - apply IHx. intros nl' cc'. now apply IHy.
  - now apply IHx.
  - now rewrite (IHx i k k' Hk), (IHy i k k' Hk).
  - now apply IHf.
  - now apply IHf.
  - now apply IHf.
  - f_equal. apply IHx. intros nl' cc'. simpl. now rewrite Hk.
Qed.

Lemma cbv_best_value p : forall nl cc,
  fst (CBV.best fits pw nl cc p) = L.best fits pw nl cc p.
Proof.
  induction p as [ | i d ds IH | ds IH]; intros nl cc; simpl.
  - reflexivity.
  - apply cbv_bestDoc_value. exact IH.
  - now rewrite IH.
Qed.

(** Every node of the returned stream was built. *)
Lemma cbv_bestDoc_nodes d : forall i k,
  (forall nl cc, (CBV.streamNodes (fst (k nl cc)) <= snd (k nl cc))%nat) ->
  forall nl cc,
    (CBV.streamNodes (fst (CBV.bestDoc fits pw d i k nl cc))
     <= snd (CBV.bestDoc fits pw d i k nl cc))%nat.
Proof.
  induction d as [ | | c | t | | x IHx y IHy | x IHx y IHy | j x IHx
                 | x IHx y IHy | f IHf | f IHf | f IHf | a x IHx ];
    intros i k Hk nl cc; simpl.
  - lia.
  - apply Hk.
  - specialize (Hk nl (cc + 1)). lia.
  - specialize (Hk nl (cc + strlen t)). lia.
  - specialize (Hk i i). lia.
  - now apply IHx.
  - apply IHx. intros nl' cc'. now apply IHy.
  - now apply IHx.
  - specialize (IHx i k Hk nl cc). specialize (IHy i k Hk nl cc).
    unfold L.selectNicer. destruct (fits nl cc _ _); lia.
  - now apply IHf.
  - now apply IHf.
  - now apply IHf.
  - match goal with
    | |- (S (CBV.streamNodes (fst ?b)) <= snd ?b + 1)%nat =>
        assert (CBV.streamNodes (fst b) <= snd b)%nat; [ | lia]
    end.
    apply IHx. intros nl' cc'. simpl. specialize (Hk nl' cc'). lia.
Qed.

Lemma cbv_best_nodes p : forall nl cc,
  (CBV.streamNodes (fst (CBV.best fits pw nl cc p)) <= snd (CBV.best fits pw nl cc p))%nat.
Proof.
  induction p as [ | i d ds IH | ds IH]; intros nl cc; simpl.
  - lia.
  - apply cbv_bestDoc_nodes. exact IH.
  - specialize (IH nl cc). lia.
Qed.

(** Without a [Union] nothing is discarded: the nodes built are exactly
    those of the stream. *)
Lemma cbv_bestDoc_unionFree d : CBV.unionFree d -> forall i k,
  (forall nl cc, snd (k nl cc) = CBV.streamNodes (fst (k nl cc))) ->
  forall nl cc,
    snd (CBV.bestDoc fits pw d i k nl cc)
    = CBV.streamNodes (fst (CBV.bestDoc fits pw d i k nl cc)).
Proof.
  induction d as [ | | c | t | | x IHx y IHy | x IHx y IHy | j x IHx
                 | x IHx y IHy | f IHf | f IHf | f IHf | a x IHx ];
    intros Hd i k Hk nl cc; simpl in Hd |- *.
  - reflexivity.
  - apply Hk.
  - rewrite Hk. lia.
  - rewrite Hk. lia.
  - rewrite Hk. lia.
  - apply IHx; [tauto | exact Hk].
  - apply IHx; [tauto | ]. intros nl' cc'. apply IHy; [tauto | exact Hk].
  - now apply IHx.
  - contradiction.
  - now apply IHf.
  - now apply IHf.
  - now apply IHf.
  - rewrite IHx; [lia | exact Hd | ].
    intros nl' cc'. simpl. rewrite Hk. lia.
Qed.

Lemma cbv_best_unionFree p : CBV.unionFreePipeline p -> forall nl cc,
  snd (CBV.best fits pw nl cc p) = CBV.streamNodes (fst (CBV.best fits pw nl cc p)).
Proof.
  induction p as [ | i d ds IH | ds IH]; intros Hp nl cc; simpl in Hp |- *.
  - reflexivity.
  - destruct Hp as [Hd Hds]. apply cbv_bestDoc_unionFree; [exact Hd | ].
    intros nl' cc'. now apply IH.
  - rewrite (IH Hp). lia.
Qed.

(** C3 (as amended).  Expanding a [Union] frame lays out both alternatives in
    full before [selectNicer] chooses, nothing of either stream is left to be
    produced on demand: the stream returned is the one [selectNicer] picks
    among the two layouts of [best]; whichever it picks, the nodes built are
    at least those built for that alternative plus every node of the stream
    of the other one; and with no [Union] inside the alternatives or after
    them, the nodes built are exactly the nodes of the two streams. *)
Theorem union_builds_both_alternatives nl cc i x y ds :
  fst (CBV.best fits pw nl cc (Cons i (Union x y) ds))
  = L.selectNicer fits nl cc
      (L.best fits pw nl cc (Cons i x ds)) (L.best fits pw nl cc (Cons i y ds))
  /\ (snd (CBV.best fits pw nl cc (Cons i x ds))
      + CBV.streamNodes (L.best fits pw nl cc (Cons i y ds))
      <= snd (CBV.best fits pw nl cc (Cons i (Union x y) ds)))%nat
  /\ (CBV.streamNodes (L.best fits pw nl cc (Cons i x ds))
      + snd (CBV.best fits pw nl cc (Cons i y ds))
      <= snd (CBV.best fits pw nl cc (Cons i (Union x y) ds)))%nat
  /\ (CBV.unionFreePipeline (Cons i x ds) -> CBV.unionFreePipeline (Cons i y ds) ->
      snd (CBV.best fits pw nl cc (Cons i (Union x y) ds))
      = (CBV.streamNodes (L.best fits pw nl cc (Cons i x ds))
         + CBV.streamNodes (L.best fits pw nl cc (Cons i y ds)))%nat).
Proof.
  pose proof (cbv_best_value (Cons i x ds) nl cc) as Vx.
  pose proof (cbv_best_value (Cons i y ds) nl cc) as Vy.
  pose proof (cbv_best_nodes (Cons i x ds) nl cc) as Nx.
  pose proof (cbv_best_nodes (Cons i y ds) nl cc) as Ny.
  assert (E : snd (CBV.best fits pw nl cc (Cons i (Union x y) ds))
              = (snd (CBV.best fits pw nl cc (Cons i x ds))
                 + snd (CBV.best fits pw nl cc (Cons i y ds)))%nat)
    by (simpl; lia).
  rewrite <- Vx, <- Vy.
  split; [reflexivity | ].
  split; [lia | ].
  split; [lia | ].
  intros Hx Hy.
  rewrite E, (cbv_best_unionFree (Cons i x ds) Hx nl cc),
    (cbv_best_unionFree (Cons i y ds) Hy nl cc).
  reflexivity.
Qed.

End UnionEvaluation.

(** The amended C3 at a [Union] frame without further choices: five nodes
    are built, the one of the chosen stream and the four of the other. *)
Lemma union_builds_both_alternatives_witness :
  CBV.unionFreePipeline (Cons 0 (Char "a") (@Nil unit))
  /\ CBV.unionFreePipeline
       (Cons 0 (Cat Line (Cat (Text "bbb") (Cat (Text "ccc") (Text "ddd")))) (@Nil unit))
  /\ snd (CBV.best L.fitsUnbounded Unbounded 0 0
            (Cons 0 (Union (Char "a")
                       (Cat Line (Cat (Text "bbb") (Cat (Text "ccc") (Text "ddd")))))
               (@Nil unit)))
     = (CBV.streamNodes (L.best L.fitsUnbounded Unbounded 0 0
                           (Cons 0 (Char "a") (@Nil unit)))
        + CBV.streamNodes
            (L.best L.fitsUnbounded Unbounded 0 0
               (Cons 0 (Cat Line (Cat (Text "bbb") (Cat (Text "ccc") (Text "ddd"))))
                  (@Nil unit))))%nat.
Proof.
  assert (Hx : CBV.unionFreePipeline (Cons 0 (Char "a") (@Nil unit)))
    by (simpl; tauto).
  assert (Hy : CBV.unionFreePipeline
                 (Cons 0 (Cat Line (Cat (Text "bbb") (Cat (Text "ccc") (Text "ddd"))))
                    (@Nil unit)))
    by (simpl; tauto).
  split; [exact Hx | ]. split; [exact Hy | ].
  exact (proj2 (proj2 (proj2
    (union_builds_both_alternatives L.fitsUnbounded Unbounded 0 0 0 (Char "a")
       (Cat Line (Cat (Text "bbb") (Cat (Text "ccc") (Text "ddd")))) (@Nil unit))))
    Hx Hy).
Defined.

(** C3, counterexample to the claim as stated.  Under [layoutUnbounded] the
    document
    [Union (Char "a") (Cat Line (Cat (Text "bbb") (Cat (Text "ccc") (Text "ddd"))))]
    is laid out as its first alternative, one node.  Of the second stream,
    [SLine 0 (SText "bbb" (SText "ccc" (SText "ddd" SEmpty)))],
    [selectNicer] needs two nodes: the [SLine] whose indentation
    [initialIndentation] returns and the [SText "bbb"] whose tag the [Line]
    arm read to build it.  Five nodes are built: the two nodes
    [SText "ccc"] and [SText "ddd"], which nothing examines, are computed. *)
Lemma union_discarded_tail_is_built :
  fst (CBV.best L.fitsUnbounded Unbounded 0 0
         (Cons 0 (Union (Char "a")
                    (Cat Line (Cat (Text "bbb") (Cat (Text "ccc") (Text "ddd")))))
            (@Nil unit)))
  = SChar "a" SEmpty
  /\ snd (CBV.best L.fitsUnbounded Unbounded 0 0 (Cons 0 (Char "a") (@Nil unit))) = 1%nat
  /\ fst (CBV.best L.fitsUnbounded Unbounded 0 0
            (Cons 0 (Cat Line (Cat (Text "bbb") (Cat (Text "ccc") (Text "ddd"))))
               (@Nil unit)))
     = SLine 0 (SText "bbb" (SText "ccc" (SText "ddd" SEmpty)))
  /\ CBV.demandedNodes
       (SLine 0 (SText "bbb" (SText "ccc" (SText "ddd" (@SEmpty unit))))) = 2%nat
  /\ snd (CBV.best L.fitsUnbounded Unbounded 0 0
            (Cons 0 (Union (Char "a")
                       (Cat Line (Cat (Text "bbb") (Cat (Text "ccc") (Text "ddd")))))
               (@Nil unit))) = 5%nat
  /\ ~ CBV.discardedTailUnforced L.fitsUnbounded Unbounded 0 0 0
         (Char "a") (Cat Line (Cat (Text "bbb") (Cat (Text "ccc") (Text "ddd"))))
         (@Nil unit).
Proof.
  repeat split.
  intros H.
  assert (Hle : (5 <= 1 + 2)%nat).
  { apply H; [reflexivity | simpl; tauto]. }
  lia.
Qed.

(* ===================================================================== *)
(** * Doc: the nodes built by [list] and [tupled] *)
(* ===================================================================== *)

Section ListNodes.
Context {A : Type}.
Implicit Types (d left right sep : Doc A) (docs : list (Doc A)).

Lemma group__keeps d : nodesValid (D.group_ d) -> nodesValid d.
Proof.
  unfold D.group_. destruct (F.changesUponFlattening d); simpl; tauto.
Qed.

Lemma encloseSep_is_Cat left right sep docs :
  exists a b, D.encloseSep left right sep docs = Cat a b.
Proof.
  destruct docs as [ | d0 [ | d1 ds]]; simpl; eauto.
Qed.

Lemma encloseSep_keeps_right left right sep docs :
  nodesValid (D.encloseSep left right sep docs) -> nodesValid right.
Proof.
  destruct docs as [ | d0 [ | d1 ds]]; simpl; tauto.
Qed.

Lemma group_encloseSep_keeps_right left right sep docs :
  nodesValid (D.group (D.encloseSep left right sep docs)) -> nodesValid right.
Proof.
  intros H. apply (encloseSep_keeps_right left right sep docs).
  destruct (encloseSep_is_Cat left right sep docs) as (a & b & E).
  rewrite E in *. now apply group__keeps.
Qed.

(** C8 (code defect).  [list] and [tupled] wrap their brackets and their
    separator in [Char] nodes that hold two characters (["[ "], [" ]"],
    [", "], ["( "], [" )"]), against the invariant that a [Char] holds
    exactly one character: no document they return satisfies the
    constructor invariants, whatever the elements are. *)
Theorem list_tupled_build_two_character_Char docs :
  ~ nodesValid (D.list docs) /\ ~ nodesValid (D.tupled docs).
Proof.
  split; intros H; apply group_encloseSep_keeps_right in H;
    simpl in H; destruct H as [H _]; vm_compute in H; discriminate.
Qed.

End ListNodes.

(** The document [list] builds for the empty array, and the five offending
    strings. *)
Lemma list_nil_value :
  D.list (@nil (Doc unit))
  = Union (Cat (Char "[") (Char "]"))
          (Cat (FlatAlt (Char "[ ") (Char "[")) (FlatAlt (Char " ]") (Char "]")))
  /\ validChar "[ " = false /\ validChar " ]" = false /\ validChar ", " = false
  /\ validChar "( " = false /\ validChar " )" = false.
Proof. repeat split. Qed.

(** The engine advances the column by one for a [Char] node, so the two
    columns of [", "] are counted as one: on a page of 11 columns [list]
    keeps a one-line layout that is 12 characters long, and on a page of 13
    columns one that is 15 characters long. *)
Lemma list_overflows_page :
  R.renderWidth 11 1 (D.list [Text "abcd"; Text "efgh"] : Doc unit)
  = Some "[abcd, efgh]"
  /\ String.length "[abcd, efgh]" = 12%nat
  /\ R.renderWidth 13 1 (D.list [Text "abcd"; Text "efgh"; Char "i"] : Doc unit)
     = Some "[abcd, efgh, i]"
  /\ String.length "[abcd, efgh, i]" = 15%nat.
Proof. repeat split; vm_compute; reflexivity. Qed.

(* ===================================================================== *)
(** * Render *)
(* ===================================================================== *)

Section RenderFacts.
Context {A : Type}.
Implicit Types (s : SimpleDocStream A).

Lemma append_nil_r (u : string) : (u ++ EmptyString)%string = u.
Proof. induction u; simpl; congruence. Qed.

Lemma append_assoc (u v w : string) : ((u ++ v) ++ w)%string = (u ++ v ++ w)%string.
Proof. induction u; simpl; congruence. Qed.

Lemma foldS_pair (u v : string) : R.foldS [u; v] = (u ++ v)%string.
Proof. reflexivity. Qed.

Lemma foldS_cons (u : string) (l : list string) :
  R.foldS (u :: l) = (u ++ R.foldS l)%string.
Proof.
  destruct l as [ | v l]; simpl.
  - now rewrite append_nil_r.
  - reflexivity.
Qed.

(** C10.  [renderS] raises exactly when the successor chain of its input
    reaches an [SFail]; on any other stream it returns the concatenation,
    left to right, of each [SChar]'s character, each [SText]'s text, a
    newline followed by [i] spaces for each [SLine i], and nothing for
    [SAnnPush] and [SAnnPop]. *)
Theorem renderS_raises_iff_SFail s :
  R.renderS s = if containsSFail s then None else Some (streamText s).
Proof.
  induction s as [ | | c r IH | t r IH | i r IH | a r IH | r IH ]; simpl;
    try reflexivity; try exact IH.
  - rewrite IH. destruct (containsSFail r); reflexivity.
  - rewrite IH. destruct (containsSFail r); reflexivity.
  - rewrite IH. destruct (containsSFail r); [reflexivity | ].
    rewrite foldS_pair, foldS_cons, append_assoc. reflexivity.
Qed.

End RenderFacts.

(* ===================================================================== *)
(** * The documented examples, evaluated on the embedding *)
(* ===================================================================== *)

Section Examples.

(** Docstring of [layoutCompact]: [render] and [layoutCompact]. *)
Example render_lorem :
  R.render lorem = Some (unlines ["lorem"; "    ipsum"; "    dolor"; "        sit"]).
Proof. vm_compute. reflexivity. Qed.

Example layoutCompact_lorem :
  R.renderS (L.layoutCompact (B := unit) lorem)
  = Some (unlines ["lorem"; "ipsum"; "dolor"; "sit"]).
Proof. vm_compute. reflexivity. Qed.

(** Docstring of [softLine]. *)
Example softLine_wide_and_narrow :
  R.renderWidth 80 1
    (D.hcat [D.text "lorem ipsum"; D.softLine; D.text "dolor sit amet"] : Doc unit)
  = Some "lorem ipsum dolor sit amet"
  /\ R.renderWidth 10 1
       (D.hcat [D.text "lorem ipsum"; D.softLine; D.text "dolor sit amet"] : Doc unit)
     = Some (unlines ["lorem ipsum"; "dolor sit amet"]).
Proof. split; vm_compute; reflexivity. Qed.

(** Docstring of [list]. *)
Example list_wide_and_narrow :
  R.renderWidth 80 1
    (D.list [D.char "1"; D.text "20"; D.text "300"; D.text "4000"] : Doc unit)
  = Some "[1, 20, 300, 4000]"
  /\ R.renderWidth 10 1
       (D.list [D.char "1"; D.text "20"; D.text "300"; D.text "4000"] : Doc unit)
     = Some (unlines ["[ 1"; ", 20"; ", 300"; ", 4000 ]"]).
Proof. split; vm_compute; reflexivity. Qed.

(** Docstring of [line] and [group]. *)
Example line_and_group :
  R.render (D.hcat [D.text "lorem ipsum"; D.line; D.text "dolor sit amet"] : Doc unit)
  = Some (unlines ["lorem ipsum"; "dolor sit amet"])
  /\ R.render
       (D.group (D.hcat [D.text "lorem ipsum"; D.line; D.text "dolor sit amet"]) : Doc unit)
     = Some "lorem ipsum dolor sit amet".
Proof. split; vm_compute; reflexivity. Qed.

(** Docstring of [layoutSmart]: five nested calls on a page of 26 columns. *)

Example layoutPretty_funs :
  R.renderS (L.layoutPretty funs (page 26))
  = Some (unlines ["fun(fun(fun(fun(fun(";
                   "                  [ abcdef";
                   "                  , ghijklm ])))))"]).
Proof. vm_compute. reflexivity. Qed.

Example layoutSmart_funs :
  R.renderS (L.layoutSmart funs (page 26))
  = Some (unlines ["fun(";
                   "  fun(";
                   "    fun(";
                   "      fun(";
                   "        fun(";
                   "          [ abcdef";
                   "          , ghijklm ])))))"]).
Proof. vm_compute. reflexivity. Qed.

(** The revision with [fold] keeps two calls on the first line; its last
    line is 28 characters long because [", "] and [" ]"] are counted as
    one column each. *)
Example layoutSmart_fold_funs :
  R.renderS (L.layoutSmart_fold funs (page 26))
  = Some (unlines ["fun(fun(";
                   "      fun(";
                   "        fun(";
                   "          fun(";
                   "            [ abcdef";
                   "            , ghijklm ])))))"]).
Proof. vm_compute. reflexivity. Qed.

(** [group] of a [Nesting] node: the flattened alternative is a [Column]
    node, so the producer is handed the column (2) where the document itself
    is handed the nesting level (0). *)
Example group_Nesting_reads_column :
  L.layoutUnbounded
    (Cat (Text "ab") (Nesting (fun l => if l =? 0 then Char "x" else Char "y")) : Doc unit)
  = SText "ab" (SChar "x" SEmpty)
  /\ L.layoutUnbounded
       (Cat (Text "ab")
            (D.group (Nesting (fun l => if l =? 0 then Char "x" else Char "y"))) : Doc unit)
     = SText "ab" (SChar "y" SEmpty).
Proof. split; reflexivity. Qed.

End Examples.

(* ===================================================================== *)
(** * PageWidth: the remaining width *)
(* ===================================================================== *)

Section RemainingWidth.
Implicit Types (lineLength lineIndent currentColumn : Z) (ribbonFraction : Q).

(** X1.  Whatever the ribbon fraction, [remainingWidth] is at most the
    columns left on the line, at most the line indentation plus the line
    length less the column, and at least the smaller of the columns left on
    the line and the line indentation less the column (the ribbon width is
    clamped between 0 and the line length). *)
Theorem remainingWidth_bounds lineLength ribbonFraction lineIndent currentColumn :
  PW.remainingWidth lineLength ribbonFraction lineIndent currentColumn
    <= lineLength - currentColumn
  /\ PW.remainingWidth lineLength ribbonFraction lineIndent currentColumn
    <= lineIndent + Z.max 0 lineLength - currentColumn
  /\ Z.min (lineLength - currentColumn) (lineIndent - currentColumn)
    <= PW.remainingWidth lineLength ribbonFraction lineIndent currentColumn.
Proof.
  unfold PW.remainingWidth.
  generalize (Qfloor (inject_Z lineLength * ribbonFraction)). intros r. lia.
Qed.

(** X2.  With a ribbon fraction of 1, a line length and a line indentation
    that are not negative, the remaining width is the columns left on the
    line. *)
Theorem remainingWidth_full_ribbon lineLength ribbonFraction lineIndent currentColumn :
  (ribbonFraction == 1)%Q -> 0 <= lineLength -> 0 <= lineIndent ->
  PW.remainingWidth lineLength ribbonFraction lineIndent currentColumn
  = lineLength - currentColumn.
Proof.
  intros Hr Hl Hi. unfold PW.remainingWidth.
  assert (E : Qfloor (inject_Z lineLength * ribbonFraction) = lineLength).
  { rewrite <- (Qfloor_Z lineLength) at 2. apply Qfloor_comp.
    rewrite Hr. apply Qmult_1_r. }
  rewrite E. lia.
Qed.

End RemainingWidth.

Lemma remainingWidth_full_ribbon_witness :
  PW.remainingWidth 80 1 4 10 = 80 - 10.
Proof.
  apply (remainingWidth_full_ribbon 80 1 4 10); [reflexivity | lia | lia].
Defined.

(* ===================================================================== *)
(** * Layout: the fitting predicates *)
(* ===================================================================== *)

Section FittingPredicates.
Context {A : Type}.
Implicit Types (s r : SimpleDocStream A) (w lw mnl : Z).

Lemma strlen_nonneg (t : string) : 0 <= strlen t.
Proof. unfold strlen. lia. Qed.

Lemma firstLineWidth_nonneg s : 0 <= firstLineWidth s.
Proof.
  induction s as [ | | c r IH | t r IH | i r IH | a r IH | r IH ];
    cbn [firstLineWidth]; try lia.
  pose proof (strlen_nonneg t). lia.
Qed.

(** X3.  The fitting test of [layoutPretty] accepts a stream at a width
    exactly when the first line of the stream does not reach [SFail] and is
    at most that many columns wide. *)
Theorem fitsWidth_firstLine s : forall w,
  L.fitsWidth w s = negb (L.failsOnFirstLine s) && (firstLineWidth s <=? w).
Proof.
  induction s as [ | | c r IH | t r IH | i r IH | a r IH | r IH ]; intros w;
    cbn [L.fitsWidth L.failsOnFirstLine firstLineWidth negb andb].
  - now destruct (w <? 0).
  - destruct (w <? 0) eqn:E; symmetry.
    + apply Z.leb_gt. now apply Z.ltb_lt.
    + apply Z.leb_le. now apply Z.ltb_ge.
  - pose proof (firstLineWidth_nonneg r) as Hr.
    destruct (w <? 0) eqn:E.
    + apply Z.ltb_lt in E.
      replace (1 + firstLineWidth r <=? w) with false
        by (symmetry; apply Z.leb_gt; lia).
      now rewrite andb_false_r.
    + rewrite IH. f_equal.
      destruct (Z.leb_spec (firstLineWidth r) (w - 1));
        destruct (Z.leb_spec (1 + firstLineWidth r) w); try reflexivity; lia.
  - pose proof (firstLineWidth_nonneg r) as Hr.
    pose proof (strlen_nonneg t) as Ht.
    destruct (w <? 0) eqn:E.
    + apply Z.ltb_lt in E.
      replace (strlen t + firstLineWidth r <=? w) with false
        by (symmetry; apply Z.leb_gt; lia).
      now rewrite andb_false_r.
    + rewrite IH. f_equal.
      destruct (Z.leb_spec (firstLineWidth r) (w - strlen t));
        destruct (Z.leb_spec (strlen t + firstLineWidth r) w); try reflexivity; lia.
  - destruct (w <? 0) eqn:E; symmetry.
    + apply Z.leb_gt. now apply Z.ltb_lt.
    + apply Z.leb_le. now apply Z.ltb_ge.
  - destruct (w <? 0) eqn:E.
    + apply Z.ltb_lt in E. pose proof (firstLineWidth_nonneg r).
      replace (firstLineWidth r <=? w) with false
        by (symmetry; apply Z.leb_gt; lia).
      now rewrite andb_false_r.
    + apply IH.
  - destruct (w <? 0) eqn:E.
    + apply Z.ltb_lt in E. pose proof (firstLineWidth_nonneg r).
      replace (firstLineWidth r <=? w) with false
        by (symmetry; apply Z.leb_gt; lia).
      now rewrite andb_false_r.
    + apply IH.
Qed.

Lemma fitsWidth_not_fails s : forall w,
  L.fitsWidth w s = true -> L.failsOnFirstLine s = false.
Proof.
  induction s as [ | | c r IH | t r IH | i r IH | a r IH | r IH ]; intros w; simpl;
    destruct (w <? 0); try discriminate; try reflexivity; apply IH.
Qed.

Lemma go_fitsWidth lw mnl s : forall w,
  L.go lw mnl w s = true -> L.fitsWidth w s = true.
Proof.
  induction s as [ | | c r IH | t r IH | i r IH | a r IH | r IH ]; intros w; simpl;
    destruct (w <? 0); try discriminate; auto.
Qed.

Lemma go_fold_fitsWidth lw mnl s : forall w,
  L.go_fold lw mnl w s = true -> L.fitsWidth w s = true.
Proof.
  induction s as [ | | c r IH | t r IH | i r IH | a r IH | r IH ]; intros w; simpl;
    destruct (w <? 0); try discriminate; auto.
Qed.

(** X4.  Whatever the fitting predicate of [layoutSmart] accepts, in either
    revision, the fitting predicate of [layoutPretty] accepts for the same
    page, nesting level and column: the smart test only adds rejections. *)
Theorem fitsSmart_implies_fitsPretty lw (rfrac : Q) nl cc iy s :
  L.fitsSmart lw rfrac nl cc iy s = true \/ L.fitsSmart_fold lw rfrac nl cc iy s = true ->
  L.fitsPretty lw rfrac nl cc iy s = true.
Proof.
  unfold L.fitsSmart, L.fitsSmart_fold, L.fitsPretty.
  intros [H | H]; [eapply go_fitsWidth | eapply go_fold_fitsWidth]; exact H.
Qed.

End FittingPredicates.

Lemma fitsSmart_implies_fitsPretty_witness :
  L.fitsPretty 80 1 0 0 None (SText "ab" (SLine 0 (@SEmpty unit))) = true.
Proof.
  apply (fitsSmart_implies_fitsPretty 80 1 0 0 None (SText "ab" (SLine 0 (@SEmpty unit)))).
  left. vm_compute. reflexivity.
Defined.

(* ===================================================================== *)
(** * Layout: blank lines *)
(* ===================================================================== *)

Section BlankLines.
Context {A : Type}.




End BlankLines.

(* ===================================================================== *)
(** * Flatten and the layouts *)
(* ===================================================================== *)

Section FlattenLayouts.
Context {A : Type}.
Variable fits : L.FittingPredicate (A := A).
Variable pw : PageWidth.
Implicit Types (d x y : Doc A) (i nl cc : Z).

Lemma flatten_flatDoc d : flatDoc (F.flatten d).
Proof.
  induction d as [ | | c | t | | x IHx y IHy | x IHx y IHy | j x IHx
                 | x IHx y IHy | f IHf | f IHf | f IHf | a x IHx ]; simpl; auto.
Qed.

Lemma bestDoc_flat_noSLine d : flatDoc d -> forall i k,
  (forall nl cc, noSLine (k nl cc) = true) ->
  forall nl cc, noSLine (L.bestDoc fits pw d i k nl cc) = true.
Proof.
  induction d as [ | | c | t | | x IHx y IHy | x IHx y IHy | j x IHx
                 | x IHx y IHy | f IHf | f IHf | f IHf | a x IHx ];
    simpl; intros Hd i k Hk nl cc; try contradiction.
  - reflexivity.
  - apply Hk.
  - apply Hk.
  - apply Hk.
  - destruct Hd as [Hx Hy]. apply IHx; [exact Hx | ].
    intros nl' cc'. now apply IHy.
  - now apply IHx.
  - now apply IHf.
  - now apply IHf.
  - now apply IHf.
  - apply IHx; [exact Hd | ]. intros nl' cc'. simpl. apply Hk.
Qed.

(** X6.  [flatten] commits a document to one line: whatever the fitting
    predicate and the page width, the layout of [flatten d] has no [SLine]
    node. *)
Theorem layout_flatten_noSLine d :
  noSLine (L.layoutWadlerLeijen fits pw (F.flatten d)) = true.
Proof.
  unfold L.layoutWadlerLeijen. simpl.
  apply bestDoc_flat_noSLine; [apply flatten_flatDoc | reflexivity].
Qed.

(** Once the rest of the pipeline reaches [SFail], so does the whole. *)
Lemma bestDoc_rest_fails d : forall i k,
  (forall nl cc, containsSFail (k nl cc) = true) ->
  forall nl cc, containsSFail (L.bestDoc fits pw d i k nl cc) = true.
Proof.
  induction d as [ | | c | t | | x IHx y IHy | x IHx y IHy | j x IHx
                 | x IHx y IHy | f IHf | f IHf | f IHf | a x IHx ];
    intros i k Hk nl cc; simpl.
  - reflexivity.
  - apply Hk.
  - apply Hk.
  - apply Hk.
  - apply Hk.
  - now apply IHx.
  - apply IHx. intros nl' cc'. now apply IHy.
  - now apply IHx.
  - unfold L.selectNicer. destruct (fits nl cc _ _); [now apply IHx | now apply IHy].
  - now apply IHf.
  - now apply IHf.
  - now apply IHf.
  - apply IHx. intros nl' cc'. simpl. apply Hk.
Qed.

Lemma bestDoc_NeverFlat_fails d :
  F.changesUponFlattening d = NeverFlat ->
  forall i k nl cc, containsSFail (L.bestDoc fits pw (F.flatten d) i k nl cc) = true.
Proof.
  induction d as [ | | c | t | | x IHx y IHy | x IHx y IHy | j x IHx
                 | x IHx y IHy | f IHf | f IHf | f IHf | a x IHx ];
    simpl; intros H i k nl cc; try discriminate.
  - reflexivity.
  - destruct (F.changesUponFlattening x) eqn:Ex.
    + destruct (F.changesUponFlattening y) eqn:Ey; try discriminate.
      apply bestDoc_rest_fails. intros nl' cc'. now apply IHy.
    + destruct (F.changesUponFlattening y) eqn:Ey; try discriminate.
      apply bestDoc_rest_fails. intros nl' cc'. now apply IHy.
    + now apply IHx.
  - destruct (F.changesUponFlattening x) eqn:Ex; simpl in H; try discriminate.
    now apply IHx.
  - destruct (F.changesUponFlattening x) eqn:Ex; simpl in H; try discriminate.
    now apply IHx.
Qed.

Lemma renderS_reaches_SFail (s : SimpleDocStream A) :
  containsSFail s = true -> R.renderS s = None.
Proof.
  induction s as [ | | c r IH | t r IH | i r IH | a r IH | r IH ]; simpl;
    intros H; try discriminate; auto; now rewrite (IH H).
Qed.

Lemma renderS_text (s : SimpleDocStream A) :
  containsSFail s = false -> R.renderS s = Some (streamText s).
Proof.
  induction s as [ | | c r IH | t r IH | i r IH | a r IH | r IH ]; simpl;
    intros H; try discriminate; auto; rewrite (IH H); try reflexivity.
  rewrite foldS_pair, foldS_cons, append_assoc. reflexivity.
Qed.

(** X7.  When [changesUponFlattening d] is [NeverFlat], every layout of
    [flatten d] reaches [SFail], so rendering it raises: the one-line
    alternative that [group] declines to build could never be chosen. *)
Theorem NeverFlat_flatten_unrenderable d :
  F.changesUponFlattening d = NeverFlat ->
  R.renderS (L.layoutWadlerLeijen fits pw (F.flatten d)) = None.
Proof.
  intros H. apply renderS_reaches_SFail.
  unfold L.layoutWadlerLeijen. simpl. now apply bestDoc_NeverFlat_fails.
Qed.

End FlattenLayouts.

Lemma NeverFlat_flatten_unrenderable_witness :
  R.renderS (L.layoutWadlerLeijen L.fitsUnbounded Unbounded
               (F.flatten (Cat (Text "ab") (Nest 2 (Cat Line (Char "c")))) : Doc unit))
  = None.
Proof.
  apply (NeverFlat_flatten_unrenderable L.fitsUnbounded Unbounded
           (Cat (Text "ab") (Nest 2 (Cat Line (Char "c"))))).
  reflexivity.
Defined.

(* ===================================================================== *)
(** * Layouts that cannot fail *)
(* ===================================================================== *)

Section SafeLayouts.
Context {A : Type}.
Implicit Types (d x y : Doc A) (i nl cc : Z) (s : SimpleDocStream A).

Lemma containsSFail_false_first_line s :
  containsSFail s = false -> L.failsOnFirstLine s = false.
Proof.
  induction s as [ | | c r IH | t r IH | i r IH | a r IH | r IH ]; simpl;
    intros H; try discriminate; auto.
Qed.

(** In the layout of a flat document followed by a rest that fails only on
    its first line, a failure is on the first line. *)
Lemma bestDoc_flat_fails_early (fits : L.FittingPredicate) (pw : PageWidth) d :
  flatDoc d -> forall i k,
  (forall nl cc, containsSFail (k nl cc) = L.failsOnFirstLine (k nl cc)) ->
  forall nl cc,
    containsSFail (L.bestDoc fits pw d i k nl cc)
    = L.failsOnFirstLine (L.bestDoc fits pw d i k nl cc).
Proof.
  induction d as [ | | c | t | | x IHx y IHy | x IHx y IHy | j x IHx
                 | x IHx y IHy | f IHf | f IHf | f IHf | a x IHx ];
    simpl; intros Hd i k Hk nl cc; try contradiction.
  - reflexivity.
  - apply Hk.
  - apply Hk.
  - apply Hk.
  - destruct Hd as [Hx Hy]. apply IHx; [exact Hx | ].
    intros nl' cc'. now apply IHy.
  - now apply IHx.
  - now apply IHf.
  - now apply IHf.
  - now apply IHf.
  - apply IHx; [exact Hd | ]. intros nl' cc'. simpl. apply Hk.
Qed.

Lemma bestDoc_safe (fits : L.FittingPredicate) (pw : PageWidth) :
  fitsRejectsFailure fits -> forall d, safeDoc d -> forall i k,
  (forall nl cc, containsSFail (k nl cc) = false) ->
  forall nl cc, containsSFail (L.bestDoc fits pw d i k nl cc) = false.
Proof.
  intros Hfits d.
  induction d as [ | | c | t | | x IHx y IHy | x IHx y IHy | j x IHx
                 | x IHx y IHy | f IHf | f IHf | f IHf | a x IHx ];
    simpl; intros Hd i k Hk nl cc; try contradiction.
  - apply Hk.
  - apply Hk.
  - apply Hk.
  - apply Hk.
  - destruct Hd as [Hx Hy]. now apply IHx.
  - destruct Hd as [Hx Hy]. apply IHx; [exact Hx | ].
    intros nl' cc'. now apply IHy.
  - now apply IHx.
  - destruct Hd as [Hx Hy]. unfold L.selectNicer.
    destruct (fits nl cc _ _) eqn:E.
    + apply Hfits in E.
      rewrite (bestDoc_flat_fails_early fits pw x Hx i k); [exact E | ].
      intros nl' cc'. rewrite Hk. symmetry.
      apply containsSFail_false_first_line, Hk.
    + now apply IHy.
  - now apply IHf.
  - now apply IHf.
  - now apply IHf.
  - apply IHx; [exact Hd | ]. intros nl' cc'. simpl. apply Hk.
Qed.

Lemma fitsUnbounded_rejects : fitsRejectsFailure (L.fitsUnbounded (A := A)).
Proof.
  intros nl cc iy s H. unfold L.fitsUnbounded in H. now apply negb_true_iff in H.
Qed.

Lemma fitsPretty_rejects lw rf : fitsRejectsFailure (L.fitsPretty (A := A) lw rf).
Proof.
  intros nl cc iy s H. unfold L.fitsPretty in H. eapply fitsWidth_not_fails, H.
Qed.

Lemma fitsSmart_rejects lw rf : fitsRejectsFailure (L.fitsSmart (A := A) lw rf).
Proof.
  intros nl cc iy s H. unfold L.fitsSmart in H.
  eapply fitsWidth_not_fails, go_fitsWidth, H.
Qed.

Lemma fitsSmart_fold_rejects lw rf : fitsRejectsFailure (L.fitsSmart_fold (A := A) lw rf).
Proof.
  intros nl cc iy s H. unfold L.fitsSmart_fold in H.
  eapply fitsWidth_not_fails, go_fold_fitsWidth, H.
Qed.

Lemma layoutWadlerLeijen_safe (fits : L.FittingPredicate) (pw : PageWidth) d :
  fitsRejectsFailure fits -> safeDoc d ->
  containsSFail (L.layoutWadlerLeijen fits pw d) = false.
Proof.
  intros Hf Hd. unfold L.layoutWadlerLeijen. simpl.
  apply bestDoc_safe; auto.
Qed.

Lemma scanDoc_safe {B : Type} d : safeDoc d -> forall (k : Z -> SimpleDocStream B),
  (forall col, containsSFail (k col) = false) ->
  forall col, containsSFail (L.scanDoc d k col) = false.
Proof.
  induction d as [ | | c | t | | x IHx y IHy | x IHx y IHy | j x IHx
                 | x IHx y IHy | f IHf | f IHf | f IHf | a x IHx ];
    simpl; intros Hd k Hk col; try contradiction.
  - apply Hk.
  - apply Hk.
  - apply Hk.
  - apply Hk.
  - destruct Hd as [Hx Hy]. now apply IHx.
  - destruct Hd as [Hx Hy]. apply IHx; [exact Hx | ].
    intros col'. now apply IHy.
  - now apply IHx.
  - destruct Hd as [Hx Hy]. now apply IHy.
  - now apply IHf.
  - now apply IHf.
  - now apply IHf.
  - now apply IHx.
Qed.

(** X8.  A document whose only [Fail] nodes sit in the flat first
    alternative of a [Union] (or in the unvisited second component of a
    [FlatAlt]) is rendered without an exception by every layout:
    [layoutUnbounded], [layoutPretty], [layoutSmart] in both revisions and
    [layoutCompact] never produce [SFail] for it, and [renderS] returns the
    text of the stream. *)
Theorem safeDoc_renders (doc : Doc A) (options : LayoutOptions) :
  safeDoc doc ->
  R.renderS (L.layoutUnbounded doc) = Some (streamText (L.layoutUnbounded doc))
  /\ R.renderS (L.layoutPretty doc options)
     = Some (streamText (L.layoutPretty doc options))
  /\ R.renderS (L.layoutSmart doc options)
     = Some (streamText (L.layoutSmart doc options))
  /\ R.renderS (L.layoutSmart_fold doc options)
     = Some (streamText (L.layoutSmart_fold doc options))
  /\ R.renderS (L.layoutCompact (B := A) doc)
     = Some (streamText (L.layoutCompact (B := A) doc)).
Proof.
  intros Hd.
  unfold L.layoutUnbounded, L.layoutPretty, L.layoutSmart, L.layoutSmart_fold.
  destruct (pageWidth options) as [lw rf | ];
    repeat split; apply renderS_text;
    try (apply layoutWadlerLeijen_safe;
         [first [ apply fitsUnbounded_rejects | apply fitsPretty_rejects
                | apply fitsSmart_rejects | apply fitsSmart_fold_rejects ]
         | exact Hd ]);
    unfold L.layoutCompact; simpl; apply scanDoc_safe; auto.
Qed.

(** What [changesUponFlattening] returns is flat when the first alternative
    of every [Union] is. *)
Lemma static_flatDoc d : staticDoc d = true -> flatDoc d.
Proof.
  induction d as [ | | c | t | | x IHx y IHy | x IHx y IHy | j x IHx
                 | x IHx y IHy | f IHf | f IHf | f IHf | a x IHx ];
    simpl; intros H; try discriminate; auto.
  apply andb_true_iff in H. destruct H. auto.
Qed.

Lemma Flattened_flatDoc d : unionsFlat d -> forall d',
  F.changesUponFlattening d = Flattened d' -> flatDoc d'.
Proof.
  induction d as [ | | c | t | | x IHx y IHy | x IHx y IHy | j x IHx
                 | x IHx y IHy | f IHf | f IHf | f IHf | a x IHx ];
    simpl; intros Hd d' H; try discriminate.
  - inversion H; subst. apply flatten_flatDoc.
  - destruct Hd as [Hx Hy].
    destruct (F.changesUponFlattening x) as [x' | | ] eqn:Ex;
      destruct (F.changesUponFlattening y) as [y' | | ] eqn:Ey;
      try discriminate; inversion H; subst; simpl; split;
      try (now apply IHx); try (now apply IHy);
      apply static_flatDoc, AlreadyFlat_iff_static; assumption.
  - destruct (F.changesUponFlattening x) as [x' | | ] eqn:Ex; simpl in H;
      try discriminate.
    inversion H; subst. simpl. now apply IHx.
  - inversion H; subst. tauto.
  - inversion H; subst. simpl. intros n. apply flatten_flatDoc.
  - inversion H; subst. simpl. intros w. apply flatten_flatDoc.
  - inversion H; subst. simpl. intros n. apply flatten_flatDoc.
  - destruct (F.changesUponFlattening x) as [x' | | ] eqn:Ex; simpl in H;
      try discriminate.
    inversion H; subst. simpl. now apply IHx.
Qed.

Lemma flatDoc_unionsFlat d : flatDoc d -> unionsFlat d.
Proof.
  induction d as [ | | c | t | | x IHx y IHy | x IHx y IHy | j x IHx
                 | x IHx y IHy | f IHf | f IHf | f IHf | a x IHx ];
    simpl; intros H; try contradiction; auto.
  destruct H; auto.
Qed.

Lemma safeDoc_unionsFlat d : safeDoc d -> unionsFlat d.
Proof.
  induction d as [ | | c | t | | x IHx y IHy | x IHx y IHy | j x IHx
                 | x IHx y IHy | f IHf | f IHf | f IHf | a x IHx ];
    simpl; intros H; try contradiction; auto.
  - destruct H; auto.
  - destruct H; auto.
  - destruct H; auto.
Qed.

(** [group] keeps a document safe: the first alternative of the [Union] it
    builds is flat. *)
Lemma group_keeps_safeDoc d : safeDoc d -> safeDoc (D.group d).
Proof.
  intros Hd.
  assert (Hg : safeDoc (D.group_ d)).
  { unfold D.group_.
    destruct (F.changesUponFlattening d) as [d' | | ] eqn:E; simpl; auto.
    split; [ | exact Hd].
    eapply Flattened_flatDoc; [apply safeDoc_unionsFlat, Hd | exact E]. }
  destruct d; try exact Hg; simpl in *.
  - destruct Hd as [Ha Hb].
    destruct (F.changesUponFlattening d2) as [b' | | ] eqn:E; simpl; auto.
    + split; [ | exact Ha]. eapply Flattened_flatDoc; eauto.
    + split; [ | exact Ha]. apply static_flatDoc, AlreadyFlat_iff_static, E.
  - exact Hd.
Qed.

End SafeLayouts.

(* ===================================================================== *)
(** * Doc: rewriting annotations *)
(* ===================================================================== *)

Section DocAnnotations.
Context {A B C : Type}.

Lemma alterAnnotations_fold_right (g : B -> list C) (d : Doc B) (l : list B) :
  DU.alterAnnotations g (fold_right Annotated d l)
  = fold_right Annotated (DU.alterAnnotations g d) (flat_map g l).
Proof.
  induction l as [ | b l IH]; simpl.
  - reflexivity.
  - rewrite fold_right_app. now rewrite IH.
Qed.

(** X10.  Two annotation rewrites in a row are one rewrite: for every
    document, [alterAnnotations g] after [alterAnnotations f] is
    [alterAnnotations] with each annotation [a] replaced by the annotations
    [g] gives for the elements of [f a], in order.  In particular
    [reAnnotate g'] after [reAnnotate f'] is [reAnnotate] of the
    composition. *)
Theorem alterAnnotations_compose (f : A -> list B) (g : B -> list C)
  (f' : A -> B) (g' : B -> C) (d : Doc A) :
  DU.alterAnnotations g (DU.alterAnnotations f d)
  = DU.alterAnnotations (fun a => flat_map g (f a)) d
  /\ DU.reAnnotate g' (DU.reAnnotate f' d) = DU.reAnnotate (fun a => g' (f' a)) d.
Proof.
  assert (H : forall (f0 : A -> list B) (g0 : B -> list C),
            DU.alterAnnotations g0 (DU.alterAnnotations f0 d)
            = DU.alterAnnotations (fun a => flat_map g0 (f0 a)) d).
  { intros f0 g0.
    induction d as [ | | c | t | | x IHx y IHy | x IHx y IHy | j x IHx
                   | x IHx y IHy | h IHh | h IHh | h IHh | a x IHx ]; simpl;
      try reflexivity.
    - now rewrite IHx, IHy.
    - now rewrite IHx, IHy.
    - now rewrite IHx.
    - now rewrite IHx, IHy.
    - f_equal. extensionality n. apply IHh.
    - f_equal. extensionality w. apply IHh.
    - f_equal. extensionality n. apply IHh.
    - rewrite alterAnnotations_fold_right. now rewrite IHx. }
  split; [apply H | ].
  unfold DU.reAnnotate. rewrite H. reflexivity.
Qed.

(** [flatten] and [changesUponFlattening] do not look at annotations. *)
Lemma flatten_fold_right_Annotated (d : Doc B) (l : list B) :
  F.flatten (fold_right Annotated d l) = fold_right Annotated (F.flatten d) l.
Proof.
  induction l as [ | b l IH]; simpl; [reflexivity | now rewrite IH].
Qed.

Lemma changesUponFlattening_fold_right_Annotated (d : Doc B) (l : list B) :
  F.changesUponFlattening (fold_right Annotated d l)
  = F.map (fun b => fold_right Annotated b l) (F.changesUponFlattening d).
Proof.
  induction l as [ | b l IH]; simpl.
  - destruct (F.changesUponFlattening d); reflexivity.
  - rewrite IH. destruct (F.changesUponFlattening d); reflexivity.
Qed.

(** X11.  The flatten analysis commutes with rewriting annotations:
    [flatten (alterAnnotations f d)] is [alterAnnotations f (flatten d)],
    [changesUponFlattening (alterAnnotations f d)] is the result for [d]
    with [alterAnnotations f] mapped over it, and [group (reAnnotate g d)]
    is [reAnnotate g (group d)]. *)
Theorem flatten_group_alterAnnotations (f : A -> list B) (g : A -> B) (d : Doc A) :
  F.flatten (DU.alterAnnotations f d) = DU.alterAnnotations f (F.flatten d)
  /\ F.changesUponFlattening (DU.alterAnnotations f d)
     = F.map (DU.alterAnnotations f) (F.changesUponFlattening d)
  /\ D.group (DU.reAnnotate g d) = DU.reAnnotate g (D.group d).
Proof.
  assert (Hfl : forall (f0 : A -> list B) (e : Doc A),
            F.flatten (DU.alterAnnotations f0 e)
            = DU.alterAnnotations f0 (F.flatten e)).
  { intros f0 e.
    induction e as [ | | c | t | | x IHx y IHy | x IHx y IHy | j x IHx
                   | x IHx y IHy | h IHh | h IHh | h IHh | a x IHx ]; simpl;
      try reflexivity; try assumption.
    - now rewrite IHx, IHy.
    - now rewrite IHx.
    - f_equal. extensionality n. apply IHh.
    - f_equal. extensionality w. apply IHh.
    - f_equal. extensionality n. apply IHh.
    - rewrite flatten_fold_right_Annotated. now rewrite IHx. }
  assert (Hc : forall (f0 : A -> list B) (e : Doc A),
            F.changesUponFlattening (DU.alterAnnotations f0 e)
            = F.map (DU.alterAnnotations f0) (F.changesUponFlattening e)).
  { intros f0 e.
    induction e as [ | | c | t | | x IHx y IHy | x IHx y IHy | j x IHx
                   | x IHx y IHy | h IHh | h IHh | h IHh | a x IHx ]; simpl;
      try reflexivity.
    - now rewrite Hfl.
    - rewrite IHx, IHy.
      destruct (F.changesUponFlattening x), (F.changesUponFlattening y); reflexivity.
    - rewrite IHx. destruct (F.changesUponFlattening x); reflexivity.
    - do 2 f_equal. extensionality n. apply Hfl.
    - do 2 f_equal. extensionality w. apply Hfl.
    - do 2 f_equal. extensionality n. apply Hfl.
    - rewrite changesUponFlattening_fold_right_Annotated, IHx.
      destruct (F.changesUponFlattening x); reflexivity. }
  split; [apply Hfl | ]. split; [apply Hc | ].
  unfold DU.reAnnotate.
  assert (Hg : D.group_ (DU.alterAnnotations (fun a => [g a]) d)
               = DU.alterAnnotations (fun a => [g a]) (D.group_ d)).
  { unfold D.group_. rewrite Hc.
    destruct (F.changesUponFlattening d); reflexivity. }
  destruct d; try exact Hg; simpl.
  - rewrite Hc. destruct (F.changesUponFlattening d2); reflexivity.
  - reflexivity.
Qed.

End DocAnnotations.

Section DocAnnotationsIdentity.
Context {A : Type}.

(** X12.  [reAnnotate] with the identity function returns the document
    unchanged (producers compared extensionally). *)
Theorem reAnnotate_id (d : Doc A) : DU.reAnnotate (fun a => a) d = d.
Proof.
  unfold DU.reAnnotate.
  induction d as [ | | c | t | | x IHx y IHy | x IHx y IHy | j x IHx
                 | x IHx y IHy | h IHh | h IHh | h IHh | a x IHx ]; simpl;
    try reflexivity.
  - now rewrite IHx, IHy.
  - now rewrite IHx, IHy.
  - now rewrite IHx.
  - now rewrite IHx, IHy.
  - f_equal. extensionality n. apply IHh.
  - f_equal. extensionality w. apply IHh.
  - f_equal. extensionality n. apply IHh.
  - now rewrite IHx.
Qed.

End DocAnnotationsIdentity.

(* ===================================================================== *)
(** * Layouts and annotations *)
(* ===================================================================== *)

Section LayoutAnnotations.
Context {A B : Type}.

Lemma unAnnotate_noAnnotated (d : Doc A) : noAnnotated (DU.unAnnotate (B := B) d).
Proof.
  unfold DU.unAnnotate.
  induction d as [ | | c | t | | x IHx y IHy | x IHx y IHy | j x IHx
                 | x IHx y IHy | h IHh | h IHh | h IHh | a x IHx ]; simpl; auto.
Qed.

Lemma bestDoc_noAnnotated_unmarked (fits : L.FittingPredicate (A := B)) (pw : PageWidth)
  (d : Doc B) : noAnnotated d -> forall i k,
  (forall nl cc, unmarked (k nl cc) = true) ->
  forall nl cc, unmarked (L.bestDoc fits pw d i k nl cc) = true.
Proof.
  induction d as [ | | c | t | | x IHx y IHy | x IHx y IHy | j x IHx
                 | x IHx y IHy | f IHf | f IHf | f IHf | a x IHx ];
    simpl; intros Hd i k Hk nl cc; try contradiction.
  - reflexivity.
  - apply Hk.
  - apply Hk.
  - apply Hk.
  - apply Hk.
  - destruct Hd. now apply IHx.
  - destruct Hd as [Hx Hy]. apply IHx; [exact Hx | ].
    intros nl' cc'. now apply IHy.
  - now apply IHx.
  - destruct Hd as [Hx Hy]. unfold L.selectNicer.
    destruct (fits nl cc _ _); [now apply IHx | now apply IHy].
  - now apply IHf.
  - now apply IHf.
  - now apply IHf.
Qed.

(** X13.  After [unAnnotate] no layout carries an annotation marker: the
    streams of [layoutUnbounded], [layoutPretty] and [layoutSmart] for
    [unAnnotate d] have no [SAnnPush] and no [SAnnPop]. *)
Theorem unAnnotate_layouts_unmarked (d : Doc A) (options : LayoutOptions) :
  unmarked (L.layoutUnbounded (DU.unAnnotate (B := B) d)) = true
  /\ unmarked (L.layoutPretty (DU.unAnnotate (B := B) d) options) = true
  /\ unmarked (L.layoutSmart (DU.unAnnotate (B := B) d) options) = true
  /\ unmarked (L.layoutSmart_fold (DU.unAnnotate (B := B) d) options) = true.
Proof.
  unfold L.layoutUnbounded, L.layoutPretty, L.layoutSmart, L.layoutSmart_fold.
  destruct (pageWidth options) as [lw rf | ];
    repeat split; unfold L.layoutWadlerLeijen; simpl;
    apply bestDoc_noAnnotated_unmarked;
      first [ apply unAnnotate_noAnnotated | reflexivity ].
Qed.

Lemma scanDoc_fold_right_Annotated {R : Type} (d : Doc B) (l : list B)
  (k : Z -> SimpleDocStream R) col :
  L.scanDoc (fold_right Annotated d l) k col = L.scanDoc d k col.
Proof.
  induction l as [ | b l IH]; simpl; [reflexivity | exact IH].
Qed.

Lemma scanDoc_alterAnnotations {R : Type} (f : A -> list B) (d : Doc A) :
  forall (k k' : Z -> SimpleDocStream R),
    (forall col, k col = k' col) ->
    forall col, L.scanDoc (DU.alterAnnotations f d) k col = L.scanDoc d k' col.
Proof.
  induction d as [ | | c | t | | x IHx y IHy | x IHx y IHy | j x IHx
                 | x IHx y IHy | h IHh | h IHh | h IHh | a x IHx ];
    intros k k' Hk col; simpl.
  - reflexivity.
  - apply Hk.
  - now rewrite Hk.
  - now rewrite Hk.
  - now rewrite Hk.
  - now apply IHx.
  - apply IHx. intros col'. now apply IHy.
  - now apply IHx.
  - now apply IHy.
  - now apply IHh.
  - now apply IHh.
  - now apply IHh.
  - rewrite scanDoc_fold_right_Annotated. now apply IHx.
Qed.

(** X14.  [layoutCompact] does not depend on annotations: however the
    annotations of a document are rewritten ([alterAnnotations], hence also
    [reAnnotate] and [unAnnotate]), its compact layout is the same stream. *)
Theorem layoutCompact_alterAnnotations {R : Type} (f : A -> list B) (d : Doc A) :
  L.layoutCompact (B := R) (DU.alterAnnotations f d) = L.layoutCompact d.
Proof.
  unfold L.layoutCompact. simpl.
  apply scanDoc_alterAnnotations. reflexivity.
Qed.

End LayoutAnnotations.

Section CompactGroup.
Context {A B : Type}.

(** X15.  [group] does not change the compact layout:
    [layoutCompact (group d)] is [layoutCompact d], because [layoutCompact]
    takes the second alternative of a [Union] and the first component of a
    [FlatAlt]. *)
Theorem layoutCompact_group (d : Doc A) :
  L.layoutCompact (B := B) (D.group d) = L.layoutCompact d.
Proof.
  assert (Hg : L.layoutCompact (B := B) (D.group_ d) = L.layoutCompact d).
  { unfold D.group_. destruct (F.changesUponFlattening d); reflexivity. }
  destruct d; try exact Hg; simpl.
  destruct (F.changesUponFlattening d2); reflexivity.
Qed.

End CompactGroup.

Section LayoutReAnnotate.
Context {A B : Type}.
Variable f : A -> B.
Implicit Types (s : SimpleDocStream A) (d : Doc A).

Lemma initialIndentation_mapAnnotations s :
  L.initialIndentation (mapAnnotations f s) = L.initialIndentation s.
Proof.
  induction s as [ | | c r IH | t r IH | i r IH | a r IH | r IH ]; simpl; auto.
Qed.

Lemma lineIndentation_mapAnnotations i s :
  L.lineIndentation i (mapAnnotations f s) = L.lineIndentation i s.
Proof. destruct s; reflexivity. Qed.

Lemma failsOnFirstLine_mapAnnotations s :
  L.failsOnFirstLine (mapAnnotations f s) = L.failsOnFirstLine s.
Proof.
  induction s as [ | | c r IH | t r IH | i r IH | a r IH | r IH ]; simpl; auto.
Qed.

Lemma fitsWidth_mapAnnotations s : forall w,
  L.fitsWidth w (mapAnnotations f s) = L.fitsWidth w s.
Proof.
  induction s as [ | | c r IH | t r IH | i r IH | a r IH | r IH ]; intros w; simpl;
    try reflexivity; now rewrite IH.
Qed.

Lemma go_mapAnnotations lw mnl s : forall w,
  L.go lw mnl w (mapAnnotations f s) = L.go lw mnl w s.
Proof.
  induction s as [ | | c r IH | t r IH | i r IH | a r IH | r IH ]; intros w; simpl;
    try reflexivity; now rewrite IH.
Qed.

Lemma go_fold_mapAnnotations lw mnl s : forall w,
  L.go_fold lw mnl w (mapAnnotations f s) = L.go_fold lw mnl w s.
Proof.
  induction s as [ | | c r IH | t r IH | i r IH | a r IH | r IH ]; intros w; simpl;
    try reflexivity; now rewrite IH.
Qed.

Lemma bestDoc_reAnnotate (fitsA : L.FittingPredicate (A := A))
  (fitsB : L.FittingPredicate (A := B)) (pw : PageWidth) :
  fitsIgnoresAnnotations f fitsA fitsB -> forall d i k k',
  (forall nl cc, k' nl cc = mapAnnotations f (k nl cc)) ->
  forall nl cc,
    L.bestDoc fitsB pw (DU.reAnnotate f d) i k' nl cc
    = mapAnnotations f (L.bestDoc fitsA pw d i k nl cc).
Proof.
  intros Hfits d. unfold DU.reAnnotate.
  induction d as [ | | c | t | | x IHx y IHy | x IHx y IHy | j x IHx
                 | x IHx y IHy | h IHh | h IHh | h IHh | a x IHx ];
    intros i k k' Hk nl cc; simpl.
  - reflexivity.
  - apply Hk.
  - now rewrite Hk.
  - now rewrite Hk.
  - now rewrite Hk, lineIndentation_mapAnnotations.
  - now apply IHx.
  - apply IHx. intros nl' cc'. now apply IHy.
  - now apply IHx.
  - rewrite (IHx i k k' Hk), (IHy i k k' Hk). unfold L.selectNicer.
    rewrite initialIndentation_mapAnnotations, Hfits.
    now destruct (fitsA nl cc _ _).
  - now apply IHh.
  - now apply IHh.
  - now apply IHh.
  - f_equal. apply IHx. intros nl' cc'. simpl. now rewrite Hk.
Qed.

Lemma layoutWadlerLeijen_reAnnotate (fitsA : L.FittingPredicate (A := A))
  (fitsB : L.FittingPredicate (A := B)) (pw : PageWidth) d :
  fitsIgnoresAnnotations f fitsA fitsB ->
  L.layoutWadlerLeijen fitsB pw (DU.reAnnotate f d)
  = mapAnnotations f (L.layoutWadlerLeijen fitsA pw d).
Proof.
  intros H. unfold L.layoutWadlerLeijen. simpl.
  apply bestDoc_reAnnotate; [exact H | reflexivity].
Qed.

Lemma layouts_reAnnotate d (options : LayoutOptions) :
  L.layoutUnbounded (DU.reAnnotate f d) = mapAnnotations f (L.layoutUnbounded d)
  /\ L.layoutPretty (DU.reAnnotate f d) options
     = mapAnnotations f (L.layoutPretty d options)
  /\ L.layoutSmart (DU.reAnnotate f d) options
     = mapAnnotations f (L.layoutSmart d options)
  /\ L.layoutSmart_fold (DU.reAnnotate f d) options
     = mapAnnotations f (L.layoutSmart_fold d options).
Proof.
  unfold L.layoutUnbounded, L.layoutPretty, L.layoutSmart, L.layoutSmart_fold.
  destruct (pageWidth options) as [lw rf | ];
    repeat split; apply layoutWadlerLeijen_reAnnotate;
    intros nl cc iy s;
    unfold L.fitsUnbounded, L.fitsPretty, L.fitsSmart, L.fitsSmart_fold;
    first [ now rewrite failsOnFirstLine_mapAnnotations
          | apply fitsWidth_mapAnnotations
          | apply go_mapAnnotations
          | apply go_fold_mapAnnotations ].
Qed.

End LayoutReAnnotate.

(* ===================================================================== *)
(** * SimpleDocStream: rewriting annotations *)
(* ===================================================================== *)

Section StreamAnnotations.
Context {A B : Type}.
Implicit Types (s r : SimpleDocStream A) (stack : list AnnotationRemoval).

Lemma returned_option_map {X Y : Type} (g : X -> Y) (o : option X) :
  returned (option_map g o) = returned o.
Proof. destruct o; reflexivity. Qed.

Lemma alterAnnotationS_go_returned (f : A -> option B) s : forall stack,
  returned (SDS.alterAnnotationS_go f stack s) = popsMatched (length stack) s.
Proof.
  induction s as [ | | c r IH | t r IH | i r IH | a r IH | r IH ]; intros stack; simpl;
    try reflexivity; try (rewrite returned_option_map; apply IH).
  - destruct (f a); [rewrite returned_option_map | ]; apply (IH (_ :: stack)).
  - destruct stack as [ | [ | ] stack']; simpl; try reflexivity;
      [ | rewrite returned_option_map]; apply IH.
Qed.

(** X16.  [alterAnnotationS] raises exactly when the stream has an [SAnnPop]
    with no [SAnnPush] before it left to close; annotations left open at the
    end of the stream are accepted. *)
Theorem alterAnnotationS_returned (f : A -> option B) s :
  returned (SDS.alterAnnotationS f s) = popsMatched 0 s.
Proof. apply (alterAnnotationS_go_returned f s []). Qed.

Lemma alterAnnotationS_go_keep (f : A -> B) s : forall n,
  SDS.alterAnnotationS_go (fun a => Some (f a)) (repeat DontRemove n) s
  = if popsMatched n s then Some (mapAnnotations f s) else None.
Proof.
  induction s as [ | | c r IH | t r IH | i r IH | a r IH | r IH ]; intros n; simpl;
    try reflexivity;
    try (rewrite IH; destruct (popsMatched n r); reflexivity).
  - specialize (IH (S n)). simpl in IH. rewrite IH.
    destruct (popsMatched (S n) r); reflexivity.
  - destruct n as [ | n]; simpl; [reflexivity | ].
    rewrite IH. destruct (popsMatched n r); reflexivity.
Qed.

Lemma alterAnnotationS_go_drop s : forall n,
  SDS.alterAnnotationS_go (fun _ : A => @None B) (repeat Remove n) s
  = if popsMatched n s then Some (SDS.unAnnotateS s) else None.
Proof.
  induction s as [ | | c r IH | t r IH | i r IH | a r IH | r IH ]; intros n; simpl;
    try reflexivity;
    try (rewrite IH; destruct (popsMatched n r); reflexivity).
  - apply (IH (S n)).
  - destruct n as [ | n]; simpl; [reflexivity | apply IH].
Qed.

(** X17.  With a function that removes every annotation, [alterAnnotationS]
    is [unAnnotateS] on the streams it accepts: it returns [unAnnotateS s]
    when every [SAnnPop] of [s] is matched and raises otherwise. *)
Theorem alterAnnotationS_remove_all s :
  SDS.alterAnnotationS (fun _ : A => @None B) s
  = if popsMatched 0 s then Some (SDS.unAnnotateS s) else None.
Proof. apply (alterAnnotationS_go_drop s 0). Qed.

Lemma annNested_popsMatched s : forall depth,
  annNested depth s = true -> popsMatched depth s = true.
Proof.
  induction s as [ | | c r IH | t r IH | i r IH | a r IH | r IH ]; intros depth;
    simpl; auto.
  destruct depth; auto.
Qed.



(** X19.  [reAnnotateS] (and so [map]) keeps every [SAnnPush], with the
    function applied, but drops every [SAnnPop]: its result has no
    [SAnnPop] node.  The text is untouched: [renderS] gives the same result
    before and after. *)
Theorem reAnnotateS_drops_SAnnPop (f : A -> B) s :
  noSAnnPop (SDS.reAnnotateS f s) = true
  /\ R.renderS (SDS.reAnnotateS f s) = R.renderS s
  /\ SDS.unAnnotateS (B := B) (SDS.reAnnotateS f s) = SDS.unAnnotateS s.
Proof.
  induction s as [ | | c r IH | t r IH | i r IH | a r IH | r IH ]; simpl;
    try (repeat split; reflexivity);
    destruct IH as (H1 & H2 & H3); repeat split; auto;
    try (now rewrite H2); now rewrite H3.
Qed.

(** X20.  [unAnnotateS] removes every annotation marker and nothing else:
    its result has no [SAnnPush] and no [SAnnPop], and [renderS] gives the
    same result before and after. *)
Theorem unAnnotateS_unmarked s :
  unmarked (SDS.unAnnotateS (B := B) s) = true
  /\ R.renderS (SDS.unAnnotateS (B := B) s) = R.renderS s.
Proof.
  induction s as [ | | c r IH | t r IH | i r IH | a r IH | r IH ]; simpl;
    try (split; reflexivity);
    destruct IH as (H1 & H2); split; auto; now rewrite H2.
Qed.

(** X21.  Folding the annotations of a stream after [reAnnotateS f] is
    folding them with [f] applied first: for any monoid,
    [foldMap g (reAnnotateS f s) = foldMap (g after f) s]. *)
Theorem foldMap_reAnnotateS {M : Type} (empty : M) (concat : M -> M -> M)
  (f : A -> B) (g : B -> M) s :
  SDS.foldMap empty concat g (SDS.reAnnotateS f s)
  = SDS.foldMap empty concat (fun a => g (f a)) s.
Proof.
  induction s as [ | | c r IH | t r IH | i r IH | a r IH | r IH ]; simpl;
    try reflexivity; try exact IH.
  now rewrite IH.
Qed.

End StreamAnnotations.


Section LayoutThenMap.
Context {A B : Type}.

(** X22.  Mapping the annotations of a document before the layout or those
    of the stream after it gives the same stream: for [layoutUnbounded],
    [layoutPretty] and [layoutSmart] (either revision),
    [alterAnnotationS] with a function that keeps every annotation, applied
    to the layout of [d], returns the layout of [reAnnotate f d]. *)
Theorem alterAnnotationS_layout (f : A -> B) (d : Doc A) (options : LayoutOptions) :
  SDS.alterAnnotationS (fun a => Some (f a)) (L.layoutUnbounded d)
  = Some (L.layoutUnbounded (DU.reAnnotate f d))
  /\ SDS.alterAnnotationS (fun a => Some (f a)) (L.layoutPretty d options)
     = Some (L.layoutPretty (DU.reAnnotate f d) options)
  /\ SDS.alterAnnotationS (fun a => Some (f a)) (L.layoutSmart d options)
     = Some (L.layoutSmart (DU.reAnnotate f d) options)
  /\ SDS.alterAnnotationS (fun a => Some (f a)) (L.layoutSmart_fold d options)
     = Some (L.layoutSmart_fold (DU.reAnnotate f d) options).
Proof.
  destruct (layouts_reAnnotate f d options) as (E1 & E2 & E3 & E4).
  rewrite E1, E2, E3, E4. clear E1 E2 E3 E4.
  unfold SDS.alterAnnotationS.
  assert (H : forall s : SimpleDocStream A, annNested 0 s = true ->
            SDS.alterAnnotationS_go (fun a => Some (f a)) [] s
            = Some (mapAnnotations f s)).
  { intros s Hs. pose proof (alterAnnotationS_go_keep f s 0) as E.
    simpl in E. rewrite E. now rewrite (annNested_popsMatched s 0 Hs). }
  unfold L.layoutUnbounded, L.layoutPretty, L.layoutSmart, L.layoutSmart_fold.
  destruct (pageWidth options) as [lw rf | ];
    repeat split; apply H; apply layoutWadlerLeijen_annNested.
Qed.

End LayoutThenMap.

(* ===================================================================== *)
(** * SimpleDocStream: removing trailing whitespace *)
(* ===================================================================== *)

Section TrailingWhitespaceErrors.
Context {A : Type}.
Implicit Types (s r : SimpleDocStream A).

Lemma removeTrailingWhitespace_go_returned s :
  (forall wl ws,
     returned (SDS.removeTrailingWhitespace_go (RecordedWhitespace wl ws) s)
     = popsMatched 0 s)
  /\ (forall n lvl, lvl = Z.of_nat (S n) ->
        returned (SDS.removeTrailingWhitespace_go (AnnotationLevel lvl) s)
        = popsMatched (S n) s).
Proof.
  induction s as [ | | c r IH | t r IH | i r IH | a r IH | r IH ];
    try destruct IH as [IH0 IHn];
    (split; [intros wl ws | intros n lvl Hl]);
    cbn [SDS.removeTrailingWhitespace_go popsMatched];
    try reflexivity.
  - destruct (String.eqb c " "); [ | rewrite returned_option_map]; apply IH0.
  - rewrite returned_option_map. now apply IHn.
  - cbv zeta. destruct (strlen (SDS.stripEndSpaces t) =? 0);
      [ | rewrite returned_option_map]; apply IH0.
  - rewrite returned_option_map. now apply IHn.
  - apply IH0.
  - rewrite returned_option_map. now apply IHn.
  - rewrite returned_option_map. now apply (IHn 0%nat).
  - rewrite returned_option_map. apply (IHn (S n)). subst lvl. lia.
  - subst lvl. destruct n as [ | n].
    + change (1 <? Z.of_nat 1) with false. cbv iota.
      rewrite returned_option_map. apply IH0.
    + replace (1 <? Z.of_nat (S (S n))) with true by (symmetry; apply Z.ltb_lt; lia).
      rewrite returned_option_map. apply IHn. lia.
Qed.

(** X23.  [removeTrailingWhitespace] raises exactly when the stream has an
    [SAnnPop] with no [SAnnPush] before it left to close. *)
Theorem removeTrailingWhitespace_returned s :
  returned (SDS.removeTrailingWhitespace s) = popsMatched 0 s.
Proof. apply removeTrailingWhitespace_go_returned. Qed.

End TrailingWhitespaceErrors.

Section TrailingWhitespaceText.
Context {A : Type}.
Implicit Types (s r : SimpleDocStream A) (wl : list Z) (ws : Z) (t u v : string).

Lemma spacesText_S n : spacesText (S n) = String " "%char (spacesText n).
Proof. destruct n; reflexivity. Qed.

Lemma spacesText_snoc n v :
  (spacesText (S n) ++ v)%string = (spacesText n ++ String " "%char v)%string.
Proof.
  induction n as [ | n IH].
  - reflexivity.
  - rewrite (spacesText_S (S n)). cbn [append]. rewrite IH.
    rewrite (spacesText_S n). reflexivity.
Qed.

Lemma newlinesText_snoc n v :
  (newlinesText n ++ String (ascii_of_nat 10) v)%string
  = (newlinesText (S n) ++ v)%string.
Proof.
  induction n as [ | n IH]; cbn [newlinesText append] in *; [reflexivity | ].
  now rewrite IH.
Qed.

Lemma streamText_prependEmptyLines wl s :
  streamText (SDS.prependEmptyLines wl s)
  = (newlinesText (length wl) ++ streamText s)%string.
Proof.
  induction wl as [ | i wl IH]; simpl; [reflexivity | now rewrite IH].
Qed.

Lemma containsSFail_prependEmptyLines wl s :
  containsSFail (SDS.prependEmptyLines wl s) = containsSFail s.
Proof. induction wl as [ | i wl IH]; simpl; auto. Qed.

Lemma streamText_commitWhitespace wl ws s :
  streamText (SDS.commitWhitespace wl ws s)
  = (newlinesText (length wl) ++ spacesText (pendingSpaces wl ws) ++ streamText s)%string.
Proof.
  unfold SDS.commitWhitespace, pendingSpaces. destruct wl as [ | i rest].
  - destruct (ws =? 0) eqn:E0.
    + apply Z.eqb_eq in E0. subst ws. reflexivity.
    + destruct (ws =? 1) eqn:E1.
      * apply Z.eqb_eq in E1. subst ws. reflexivity.
      * reflexivity.
  - rewrite streamText_prependEmptyLines.
    cbn [streamText length]. unfold R.newline. cbn [append].
    rewrite newlinesText_snoc. reflexivity.
Qed.

Lemma containsSFail_commitWhitespace wl ws s :
  containsSFail (SDS.commitWhitespace wl ws s) = containsSFail s.
Proof.
  unfold SDS.commitWhitespace. destruct wl as [ | i rest].
  - destruct (ws =? 0); [reflexivity | ]. destruct (ws =? 1); reflexivity.
  - now rewrite containsSFail_prependEmptyLines.
Qed.

Lemma rstripFrom_spaces k : forall n p v,
  rstripFrom n p (spacesText k ++ v) = rstripFrom n (p + k) v.
Proof.
  induction k as [ | k IH]; intros n p v.
  - now rewrite Nat.add_0_r.
  - rewrite spacesText_S. cbn [append rstripFrom].
    change (Ascii.eqb " " " ") with true. cbv iota.
    rewrite IH. f_equal. lia.
Qed.

Lemma rstripFrom_ink (a : ascii) n p v :
  Ascii.eqb a " "%char = false -> Ascii.eqb a (ascii_of_nat 10) = false ->
  rstripFrom n p (String a v)
  = (newlinesText n ++ spacesText p ++ String a (rstripFrom O O v))%string.
Proof. intros H1 H2. cbn [rstripFrom]. now rewrite H1, H2. Qed.

Lemma rstripFrom_inkEnd u : forall n p v,
  inkEnd u = true -> hasNewline u = false ->
  rstripFrom n p (u ++ v)
  = (newlinesText n ++ spacesText p ++ u ++ rstripFrom O O v)%string.
Proof.
  induction u as [ | c u IH]; intros n p v Hi Hn; [discriminate | ].
  cbn [hasNewline] in Hn. apply orb_false_iff in Hn. destruct Hn as [Hc Hn].
  destruct u as [ | c' u'].
  - cbn [inkEnd] in Hi. apply negb_true_iff in Hi.
    cbn [append]. now apply rstripFrom_ink.
  - assert (Hi' : inkEnd (String c' u') = true) by exact Hi.
    destruct (Ascii.eqb c " "%char) eqn:Es.
    + apply Ascii.eqb_eq in Es. subst c.
      change ((String " " (String c' u') ++ v)%string)
        with (String " "%char (String c' u' ++ v)%string).
      cbn [rstripFrom]. change (Ascii.eqb " " " ") with true. cbv iota.
      rewrite (IH n (S p) v Hi' Hn).
      rewrite spacesText_snoc. reflexivity.
    + change ((String c (String c' u') ++ v)%string)
        with (String c (String c' u' ++ v)%string).
      rewrite (rstripFrom_ink c n p _ Es Hc).
      rewrite (IH O O v Hi' Hn). reflexivity.
Qed.

Lemma stripEndSpaces_split t :
  t = (SDS.stripEndSpaces t
       ++ spacesText (String.length t - String.length (SDS.stripEndSpaces t)))%string.
Proof.
  induction t as [ | c t IH]; [reflexivity | ].
  cbn [SDS.stripEndSpaces].
  destruct (SDS.stripEndSpaces t) as [ | c' r'] eqn:E.
  - cbn [append String.length] in IH. rewrite Nat.sub_0_r in IH.
    destruct (Ascii.eqb c " "%char) eqn:Es.
    + apply Ascii.eqb_eq in Es. subst c.
      change (String " "%char t = spacesText (S (String.length t))).
      rewrite spacesText_S. f_equal. exact IH.
    + change (String c t = String c (spacesText (String.length t - 0))).
      rewrite Nat.sub_0_r. f_equal. exact IH.
  - cbn [append String.length]. cbn [append String.length] in IH.
    f_equal. exact IH.
Qed.

Lemma stripEndSpaces_inkEnd t :
  SDS.stripEndSpaces t = EmptyString \/ inkEnd (SDS.stripEndSpaces t) = true.
Proof.
  induction t as [ | c t IH]; [now left | ].
  cbn [SDS.stripEndSpaces].
  destruct (SDS.stripEndSpaces t) as [ | c' r'] eqn:E.
  - destruct (Ascii.eqb c " "%char) eqn:Es; [now left | right].
    cbn [inkEnd]. now rewrite Es.
  - right. destruct IH as [IH | IH]; [discriminate | exact IH].
Qed.

Lemma hasNewline_stripEndSpaces t :
  hasNewline t = false -> hasNewline (SDS.stripEndSpaces t) = false.
Proof.
  induction t as [ | c t IH]; [reflexivity | ].
  cbn [hasNewline SDS.stripEndSpaces]. intros H.
  apply orb_false_iff in H. destruct H as [Hc Ht].
  specialize (IH Ht).
  destruct (SDS.stripEndSpaces t) as [ | c' r'] eqn:E.
  - destruct (Ascii.eqb c " "%char); [reflexivity | ].
    cbn [hasNewline]. now rewrite Hc.
  - cbn [hasNewline] in *. now rewrite Hc, IH.
Qed.

Lemma length_stripEndSpaces t :
  (String.length (SDS.stripEndSpaces t) <= String.length t)%nat.
Proof.
  induction t as [ | c t IH]; [reflexivity | ].
  cbn [SDS.stripEndSpaces].
  destruct (SDS.stripEndSpaces t) as [ | c' r'] eqn:E.
  - destruct (Ascii.eqb c " "%char); cbn [String.length]; lia.
  - cbn [String.length] in *. lia.
Qed.

Lemma validChar_single (c : string) :
  validChar c = true ->
  exists a, c = String a EmptyString /\ Ascii.eqb a (ascii_of_nat 10) = false.
Proof.
  unfold validChar. intros H. apply andb_true_iff in H. destruct H as [Hl Hn].
  destruct c as [ | a [ | b c']]; try discriminate.
  exists a. split; [reflexivity | ].
  apply negb_true_iff in Hn. cbn [hasNewline] in Hn.
  now apply orb_false_iff in Hn.
Qed.

Lemma removeTrailingWhitespace_go_text s :
  plainStream s = true -> forall wl ws,
  0 <= ws -> Forall (fun i => 0 <= i) wl ->
  exists s' : SimpleDocStream A,
    SDS.removeTrailingWhitespace_go (RecordedWhitespace wl ws) s = Some s'
    /\ containsSFail s' = false
    /\ streamText s'
       = rstripFrom (length wl) (pendingSpaces wl ws) (streamText s).
Proof.
  induction s as [ | | c r IH | t r IH | i r IH | a r IH | r IH ];
    cbn [plainStream]; intros Hp wl ws Hws Hwl; try discriminate.
  - (* SEmpty *)
    exists (SDS.prependEmptyLines wl SEmpty). repeat split.
    + now rewrite containsSFail_prependEmptyLines.
    + rewrite streamText_prependEmptyLines. cbn [streamText rstripFrom].
      apply append_nil_r.
  - (* SChar *)
    apply andb_true_iff in Hp. destruct Hp as [Hc Hr].
    cbn [SDS.removeTrailingWhitespace_go streamText].
    destruct (String.eqb c " ") eqn:Es.
    + apply String.eqb_eq in Es. subst c.
      assert (Hws' : 0 <= ws + 1) by lia.
      destruct (IH Hr wl (ws + 1) Hws' Hwl) as (s' & E & F & T).
      exists s'. repeat split; auto.
      rewrite T. cbn [append rstripFrom].
      change (Ascii.eqb " " " ") with true. cbv iota.
      f_equal. unfold pendingSpaces. destruct wl as [ | i0 wl'].
      * lia.
      * inversion Hwl; subst. lia.
    + destruct (validChar_single c Hc) as (a & Ea & Hn). subst c.
      assert (Ha : Ascii.eqb a " "%char = false).
      { destruct (Ascii.eqb a " "%char) eqn:E; [ | reflexivity].
        apply Ascii.eqb_eq in E. subst a. discriminate. }
      destruct (IH Hr [] 0 (Z.le_refl 0) (Forall_nil _)) as (r' & E & F & T).
      rewrite E. cbn [option_map].
      eexists. split; [reflexivity | ]. split.
      * now rewrite containsSFail_commitWhitespace.
      * rewrite streamText_commitWhitespace. cbn [streamText append].
        rewrite T. cbn [length pendingSpaces Z.to_nat].
        now rewrite (rstripFrom_ink a _ _ _ Ha Hn).
  - (* SText *)
    apply andb_true_iff in Hp. destruct Hp as [Ht Hr].
    apply negb_true_iff in Ht.
    cbn [SDS.removeTrailingWhitespace_go streamText]. cbv zeta.
    pose proof (stripEndSpaces_split t) as Hsplit.
    pose proof (length_stripEndSpaces t) as Hlen.
    destruct (strlen (SDS.stripEndSpaces t) =? 0) eqn:E0.
    + apply Z.eqb_eq in E0. unfold strlen in E0.
      assert (El : String.length (SDS.stripEndSpaces t) = O) by lia.
      destruct (SDS.stripEndSpaces t) as [ | c' u'] eqn:Eu; [ | discriminate].
      cbn [append String.length] in Hsplit. rewrite Nat.sub_0_r in Hsplit.
      assert (Hws' : 0 <= ws + strlen t) by (unfold strlen; lia).
      destruct (IH Hr wl (ws + strlen t) Hws' Hwl) as (s' & E & F & T).
      exists s'. repeat split; auto.
      rewrite T. rewrite Hsplit at 2. rewrite rstripFrom_spaces.
      f_equal. unfold pendingSpaces, strlen. destruct wl as [ | i0 wl'].
      * lia.
      * inversion Hwl; subst. lia.
    + assert (Hne : SDS.stripEndSpaces t <> EmptyString).
      { intros Eu. rewrite Eu in E0. discriminate. }
      destruct (stripEndSpaces_inkEnd t) as [Eu | Hink]; [contradiction | ].
      assert (Hws' : 0 <= strlen t - strlen (SDS.stripEndSpaces t))
        by (unfold strlen; lia).
      destruct (IH Hr [] _ Hws' (Forall_nil _)) as (r' & E & F & T).
      rewrite E. cbn [option_map].
      eexists. split; [reflexivity | ]. split.
      * now rewrite containsSFail_commitWhitespace.
      * rewrite streamText_commitWhitespace. cbn [streamText].
        rewrite T. cbn [length].
        replace (t ++ streamText r)%string
          with ((SDS.stripEndSpaces t
                 ++ spacesText (String.length t - String.length (SDS.stripEndSpaces t)))
                ++ streamText r)%string
          by (now rewrite <- Hsplit).
        rewrite append_assoc.
        rewrite (rstripFrom_inkEnd _ _ _ _ Hink (hasNewline_stripEndSpaces t Ht)).
        rewrite rstripFrom_spaces. do 4 f_equal.
        unfold pendingSpaces, strlen. lia.
  - (* SLine *)
    apply andb_true_iff in Hp. destruct Hp as [Hi Hr].
    apply Z.leb_le in Hi.
    cbn [SDS.removeTrailingWhitespace_go streamText].
    destruct (IH Hr (i :: wl) 0 (Z.le_refl 0) (Forall_cons _ Hi Hwl)) as (s' & E & F & T).
    exists s'. repeat split; auto.
    rewrite T. unfold R.newline. cbn [append rstripFrom length].
    change (Ascii.eqb (ascii_of_nat 10) " ") with false.
    change (Ascii.eqb (ascii_of_nat 10) (ascii_of_nat 10)) with true. cbv iota.
    change (String.concat EmptyString (repeat " " (Z.to_nat i)))
      with (spacesText (Z.to_nat i)).
    rewrite rstripFrom_spaces. f_equal. unfold pendingSpaces. lia.
Qed.

Lemma plainStream_no_SFail s : plainStream s = true -> containsSFail s = false.
Proof.
  induction s as [ | | c r IH | t r IH | i r IH | a r IH | r IH ]; cbn [plainStream containsSFail];
    intros H; try discriminate; try reflexivity;
    apply andb_true_iff in H; destruct H; auto.
Qed.

(** X24.  On a stream of plain text (no annotation marker, no [SFail], no
    negative indentation, single characters other than a newline in
    [SChar], no newline in [SText]) [removeTrailingWhitespace] returns a
    stream whose rendering is the rendering of the input with the spaces at
    the end of every line removed. *)
Theorem removeTrailingWhitespace_strips_lines s :
  plainStream s = true ->
  exists s' : SimpleDocStream A,
    SDS.removeTrailingWhitespace s = Some s'
    /\ R.renderS s' = option_map rstripLines (R.renderS s).
Proof.
  intros Hp.
  destruct (removeTrailingWhitespace_go_text s Hp [] 0 (Z.le_refl 0) (Forall_nil _))
    as (s' & E & F & T).
  exists s'. split; [exact E | ].
  rewrite (renderS_text s' F), (renderS_text s (plainStream_no_SFail s Hp)).
  cbn [option_map]. now rewrite T.
Qed.

End TrailingWhitespaceText.

Example rstripLines_sample :
  rstripLines (unlines ["ab  "; "   "; "  c d "; EmptyString])
  = unlines ["ab"; EmptyString; "  c d"; EmptyString].
Proof. reflexivity. Qed.

Lemma removeTrailingWhitespace_strips_lines_witness :
  exists s' : SimpleDocStream unit,
    SDS.removeTrailingWhitespace
      (SText "ab  " (SLine 3 (SLine 2 (SChar "c" (SChar " " (SText "d " (@SEmpty unit)))))))
    = Some s'
    /\ R.renderS s'
       = option_map rstripLines
           (R.renderS
              (SText "ab  " (SLine 3 (SLine 2 (SChar "c" (SChar " " (SText "d " (@SEmpty unit)))))))).
Proof.
  apply (removeTrailingWhitespace_strips_lines
           (SText "ab  " (SLine 3 (SLine 2 (SChar "c" (SChar " " (SText "d " (@SEmpty unit)))))))).
  reflexivity.
Defined.

Lemma safeDoc_renders_witness :
  R.renderS (L.layoutSmart (D.group (Cat (Text "ab") (Cat D.line (Char "c"))) : Doc unit)
               (page 3))
  = Some (streamText
            (L.layoutSmart (D.group (Cat (Text "ab") (Cat D.line (Char "c"))) : Doc unit)
               (page 3))).
Proof.
  apply (safeDoc_renders (D.group (Cat (Text "ab") (Cat D.line (Char "c"))) : Doc unit)
           (page 3)).
  simpl. tauto.
Defined.

(* ===================================================================== *)
(** * Doc: the combinators *)
(* ===================================================================== *)

Section CombinatorsSafe.
Context {A : Type}.
Implicit Types (d x y left right sep : Doc A) (docs : list (Doc A)).

Lemma concatWith_cons_cons (f : Doc A -> Doc A -> Doc A) x y docs :
  D.concatWith f (x :: y :: docs) = f x (D.concatWith f (y :: docs)).
Proof. reflexivity. Qed.

Lemma concatWith_safeDoc (f : Doc A -> Doc A -> Doc A) :
  (forall x y, safeDoc x -> safeDoc y -> safeDoc (f x y)) ->
  forall docs, Forall safeDoc docs -> safeDoc (D.concatWith f docs).
Proof.
  intros Hf docs. induction docs as [ | x docs IH]; intros H.
  - exact I.
  - destruct docs as [ | y docs'].
    + inversion H; subst. assumption.
    + rewrite concatWith_cons_cons. inversion H; subst. apply Hf; auto.
Qed.

Lemma zipWith_Cat_safeDoc (seps docs : list (Doc A)) :
  Forall safeDoc seps -> Forall safeDoc docs ->
  Forall safeDoc (D.zipWith seps docs Cat).
Proof.
  revert docs. induction seps as [ | s seps IH]; intros docs Hs Hd; simpl.
  - constructor.
  - destruct docs as [ | d docs]; [constructor | ].
    inversion Hs; inversion Hd; subst. constructor; [simpl; auto | auto].
Qed.

Lemma Forall_repeat (P : Doc A -> Prop) x n : P x -> Forall P (repeat x n).
Proof. intros H. induction n; simpl; constructor; auto. Qed.

Lemma encloseSep_safeDoc left right sep docs :
  safeDoc left -> safeDoc right -> safeDoc sep -> Forall safeDoc docs ->
  safeDoc (D.encloseSep left right sep docs).
Proof.
  intros Hl Hr Hs Hd. unfold D.encloseSep.
  destruct docs as [ | d0 [ | d1 ds]].
  - simpl. auto.
  - inversion Hd; subst. simpl. auto.
  - split; [ | exact Hr]. unfold D.cat, D.vcat.
    apply group_keeps_safeDoc, concatWith_safeDoc.
    + intros x y Hx Hy. simpl. tauto.
    + apply zipWith_Cat_safeDoc; [ | exact Hd].
      constructor; [exact Hl | now apply Forall_repeat].
Qed.

Lemma nest_safeDoc n d : safeDoc d -> safeDoc (D.nest n d).
Proof. intros H. unfold D.nest. destruct (n =? 0); exact H. Qed.

(** X9.  The combinators keep documents safe, so what they build from safe
    parts is rendered without an exception by every layout: [group] (the
    first alternative of the [Union] it builds is flat), [nest], [align]
    and [hang], the separators [hsep], [vsep], [fillSep], [sep], [hcat],
    [vcat], [fillCat] and [cat], and [list] and [tupled]. *)
Theorem combinators_keep_safeDoc d docs (n : Z) :
  safeDoc d -> Forall safeDoc docs ->
  safeDoc (D.group d) /\ safeDoc (D.nest n d) /\ safeDoc (D.align d)
  /\ safeDoc (D.hang n d)
  /\ safeDoc (D.hsep docs) /\ safeDoc (D.vsep docs) /\ safeDoc (D.fillSep docs)
  /\ safeDoc (D.sep docs)
  /\ safeDoc (D.hcat docs) /\ safeDoc (D.vcat docs) /\ safeDoc (D.fillCat docs)
  /\ safeDoc (D.cat docs)
  /\ safeDoc (D.list docs) /\ safeDoc (D.tupled docs).
Proof.
  intros Hd Hdocs.
  assert (Hc : forall f : Doc A -> Doc A -> Doc A,
             (forall x y, safeDoc x -> safeDoc y -> safeDoc (f x y)) ->
             safeDoc (D.concatWith f docs))
    by (intros f Hf; now apply concatWith_safeDoc).
  assert (Ha : forall e : Doc A, safeDoc e -> safeDoc (D.align e)).
  { intros e He. unfold D.align, D.column, D.nesting. simpl.
    intros k i. now apply nest_safeDoc. }
  repeat split.
  - now apply group_keeps_safeDoc.
  - now apply nest_safeDoc.
  - now apply Ha.
  - unfold D.hang. apply Ha. now apply nest_safeDoc.
  - apply Hc. intros x y Hx Hy. simpl. tauto.
  - apply Hc. intros x y Hx Hy. simpl. tauto.
  - apply Hc. intros x y Hx Hy. simpl. tauto.
  - apply group_keeps_safeDoc, Hc. intros x y Hx Hy. simpl. tauto.
  - apply Hc. intros x y Hx Hy. simpl. tauto.
  - apply Hc. intros x y Hx Hy. simpl. tauto.
  - apply Hc. intros x y Hx Hy. simpl. tauto.
  - apply group_keeps_safeDoc, Hc. intros x y Hx Hy. simpl. tauto.
  - apply group_keeps_safeDoc, encloseSep_safeDoc; simpl; auto.
  - apply group_keeps_safeDoc, encloseSep_safeDoc; simpl; auto.
Qed.

End CombinatorsSafe.

Lemma combinators_keep_safeDoc_witness :
  safeDoc (D.group (Text "ab" : Doc unit))
  /\ safeDoc (D.list [Text "ab"; D.softLine; Char "c"] : Doc unit).
Proof.
  assert (Hd : safeDoc (Text "ab" : Doc unit)) by exact I.
  assert (Hdocs : Forall safeDoc [Text "ab"; D.softLine; Char "c" : Doc unit]).
  { repeat constructor. }
  pose proof (combinators_keep_safeDoc (Text "ab" : Doc unit)
                [Text "ab"; D.softLine; Char "c"] 2 Hd Hdocs) as H.
  split; apply H.
Defined.

Section Combinators.
Context {A : Type}.
Implicit Types (d x y : Doc A) (docs : list (Doc A)) (ds : LayoutPipeline A).

Lemma mapWithIndex_from_punctuate (p : Doc A) (n : Z) xs : forall (i : nat) (l : Doc A),
  n = Z.of_nat (i + length xs + 1) ->
  DU.mapWithIndex_from i
    (fun j x => if n - 1 =? Z.of_nat j then x else Cat x p) (xs ++ [l])%list
  = (List.map (fun x => Cat x p) xs ++ [l])%list.
Proof.
  induction xs as [ | x xs IH]; intros i l Hn; simpl.
  - replace (n - 1 =? Z.of_nat i) with true; [reflexivity | ].
    symmetry. apply Z.eqb_eq. simpl in Hn. lia.
  - replace (n - 1 =? Z.of_nat i) with false.
    + f_equal. apply IH. simpl in Hn. lia.
    + symmetry. apply Z.eqb_neq. simpl in Hn. lia.
Qed.

(** X25.  [punctuate p] appends [p] to every document of the array but the
    last, which it leaves as it is; the empty array stays empty. *)
Theorem punctuate_all_but_last (p : Doc A) docs (l : Doc A) :
  DU.punctuate p (docs ++ [l])%list = (List.map (fun x => Cat x p) docs ++ [l])%list
  /\ DU.punctuate p [] = [].
Proof.
  split; [ | reflexivity].
  unfold DU.punctuate, DU.mapWithIndex.
  apply mapWithIndex_from_punctuate.
  rewrite length_app. simpl. lia.
Qed.

Lemma length_spacesText n : String.length (spacesText n) = n.
Proof.
  induction n as [ | n IH]; [reflexivity | ].
  rewrite spacesText_S. simpl. now rewrite IH.
Qed.

Lemma hasNewline_spacesText n : hasNewline (spacesText n) = false.
Proof.
  induction n as [ | n IH]; [reflexivity | ].
  rewrite spacesText_S. simpl. exact IH.
Qed.

Lemma spaces_nodesValid (n : Z) : nodesValid (D.spaces n : Doc A).
Proof.
  unfold D.spaces.
  destruct (n <=? 0) eqn:E0; [exact I | ].
  apply Z.leb_gt in E0. destruct (n =? 1) eqn:E1; [reflexivity | ].
  apply Z.eqb_neq in E1.
  simpl. unfold validText, D.textSpaces.
  change (String.concat EmptyString (repeat " " (Z.to_nat n)))
    with (spacesText (Z.to_nat n)).
  rewrite length_spacesText, hasNewline_spacesText.
  apply andb_true_iff. split; [ | reflexivity].
  apply Nat.leb_le. lia.
Qed.

Lemma spaces_layout_text (fits : L.FittingPredicate (A := A)) (pw : PageWidth)
  (n i nl cc : Z) :
  streamText (L.bestDoc fits pw (D.spaces n) i (fun _ _ => SEmpty) nl cc)
  = spacesText (Z.to_nat n).
Proof.
  unfold D.spaces.
  destruct (n <=? 0) eqn:E0.
  - apply Z.leb_le in E0. replace (Z.to_nat n) with O by lia. reflexivity.
  - apply Z.leb_gt in E0. destruct (n =? 1) eqn:E1.
    + apply Z.eqb_eq in E1. subst n. reflexivity.
    + cbn [L.bestDoc streamText]. unfold D.textSpaces.
      change (String.concat EmptyString (repeat " " (Z.to_nat n)))
        with (spacesText (Z.to_nat n)).
      apply append_nil_r.
Qed.

(** X26.  [spaces n] respects the constructor invariants for every [n]
    (nothing for [n <= 0], one [Char] for 1, a [Text] of two or more spaces
    otherwise), and its layout is the text of [n] spaces. *)
Theorem spaces_valid_and_wide (n : Z) :
  nodesValid (D.spaces n : Doc A)
  /\ streamText (L.layoutUnbounded (D.spaces n : Doc A)) = spacesText (Z.to_nat n).
Proof.
  split; [apply spaces_nodesValid | ].
  unfold L.layoutUnbounded, L.layoutWadlerLeijen. cbn [L.best].
  apply spaces_layout_text.
Qed.

(** X27.  [align] lays a document out with the nesting level set to the
    current column, and [hang n] with the nesting level set to the current
    column plus [n]: in the pipeline, a frame for [align d] at column [cc]
    is a frame for [d] with indentation [cc], whatever the indentation of
    the frame was. *)
Theorem align_sets_nesting_to_column (fits : L.FittingPredicate) (pw : PageWidth)
  (nl cc i n : Z) d ds :
  L.best fits pw nl cc (Cons i (D.align d) ds) = L.best fits pw nl cc (Cons cc d ds)
  /\ L.best fits pw nl cc (Cons i (D.hang n d) ds)
     = L.best fits pw nl cc (Cons (cc + n) d ds).
Proof.
  assert (Ha : forall e : Doc A,
            L.best fits pw nl cc (Cons i (D.align e) ds)
            = L.best fits pw nl cc (Cons cc e ds)).
  { intros e. unfold D.align, D.column, D.nesting, D.nest.
    rewrite best_Column, best_Nesting.
    destruct (cc - i =? 0) eqn:E.
    - apply Z.eqb_eq in E. replace i with cc by lia. reflexivity.
    - rewrite best_Nest. replace (i + (cc - i)) with cc by lia. reflexivity. }
  split; [apply Ha | ].
  unfold D.hang. rewrite Ha. unfold D.nest.
  destruct (n =? 0) eqn:E.
  - apply Z.eqb_eq in E. subst n. now rewrite Z.add_0_r.
  - now rewrite best_Nest.
Qed.

(** X28.  [fill lw] pads a text to [lw] columns: laid out at the start of a
    line, [fill lw (Text t)] is [t] followed by [lw] less the length of [t]
    spaces, and by nothing when [t] is already that long. *)
Theorem fill_pads_text (lw : Z) (t : string) :
  streamText (L.layoutUnbounded (DU.fill lw (Text t) : Doc A))
  = (t ++ spacesText (Z.to_nat (lw - strlen t)))%string.
Proof.
  unfold DU.fill, D.width, D.column, L.layoutUnbounded, L.layoutWadlerLeijen.
  cbn [L.best L.bestDoc streamText]. f_equal.
  replace (0 + strlen t - 0) with (strlen t) by lia.
  apply spaces_layout_text.
Qed.

End Combinators.

Section GroupTwice.
Context {A : Type}.

Lemma group__fixed (d : Doc A) : D.group (D.group_ d) = D.group_ d.
Proof.
  unfold D.group_.
  destruct (F.changesUponFlattening d) as [d' | | ] eqn:E; [reflexivity | | ];
    destruct d; simpl in E; try discriminate;
    unfold D.group, D.group_; simpl; rewrite ?E; reflexivity.
Qed.

(** X29.  Grouping twice is grouping once, [group (group d) = group d],
    for every document except a [FlatAlt] whose second component can never
    be flattened (there [group] returns the first component, which a second
    [group] may still change). *)
Theorem group_idempotent (d : Doc A) :
  (forall a b, d = FlatAlt a b -> F.changesUponFlattening b <> NeverFlat) ->
  D.group (D.group d) = D.group d.
Proof.
  intros H.
  destruct d; try apply group__fixed; try reflexivity.
  simpl. specialize (H d1 d2 eq_refl).
  destruct (F.changesUponFlattening d2); [reflexivity | reflexivity | ].
  now contradiction H.
Qed.

End GroupTwice.

Lemma group_idempotent_witness :
  D.group (D.group (Cat (Text "ab") (Cat D.line (Char "c")) : Doc unit))
  = D.group (Cat (Text "ab") (Cat D.line (Char "c"))).
Proof.
  apply (group_idempotent (Cat (Text "ab") (Cat D.line (Char "c")) : Doc unit)).
  intros a b E. discriminate E.
Defined.

(* ===================================================================== *)
(** * The cost of consecutive choices *)
(* ===================================================================== *)

Section ChoiceCost.
Context {A : Type}.
Variable fits : Z -> Z -> option Z -> SimpleDocStream A -> bool.
Variable pw : PageWidth.

Lemma cbv_softLine_cost (i : Z) k (c : nat) :
  (forall nl cc, snd (k nl cc) = c) ->
  forall nl cc, snd (CBV.bestDoc fits pw (D.softLine : Doc A) i k nl cc) = (2 * c + 2)%nat.
Proof.
  intros Hk nl cc. unfold D.softLine. simpl. rewrite !Hk. lia.
Qed.

Lemma cbv_softLines_cost (i : Z) (n : nat) : forall k (c : nat),
  (forall nl cc, snd (k nl cc) = c) ->
  forall nl cc,
    snd (CBV.bestDoc fits pw (D.hcat (repeat (D.softLine : Doc A) (S n))) i k nl cc)
    = (2 ^ S n * (c + 2) - 2)%nat.
Proof.
  induction n as [ | n IH]; intros k c Hk nl cc.
  - change (D.hcat (repeat (D.softLine : Doc A) 1)) with (D.softLine : Doc A).
    rewrite (cbv_softLine_cost i k c Hk). simpl. lia.
  - change (D.hcat (repeat (D.softLine : Doc A) (S (S n))))
      with (Cat (D.softLine : Doc A) (D.hcat (repeat D.softLine (S n)))).
    cbn [CBV.bestDoc].
    rewrite (cbv_softLine_cost i _ (2 ^ S n * (c + 2) - 2)).
    + rewrite (Nat.pow_succ_r' 2 (S n)).
      assert (1 <= 2 ^ S n)%nat by (apply Nat.neq_0_lt_0, Nat.pow_nonzero; lia).
      nia.
    + intros nl' cc'. now apply IH.
Qed.

(** X30.  Under the call-by-value evaluation of [best], laying out [n]
    consecutive [softLine]s builds [2 ^ (n + 1) - 2] stream nodes, whatever
    the fitting predicate and the page width, although the stream returned
    has [n] nodes: every [Union] lays out the rest of the pipeline twice. *)
Theorem softLines_cost_exponential (n : nat) (nl cc i : Z) :
  snd (CBV.best fits pw nl cc (Cons i (D.hcat (repeat (D.softLine : Doc A) n)) Nil))
  = (2 ^ (n + 1) - 2)%nat
  /\ CBV.streamNodes
       (fst (CBV.best fits pw nl cc (Cons i (D.hcat (repeat (D.softLine : Doc A) n)) Nil)))
     = n.
Proof.
  split.
  - destruct n as [ | n]; [reflexivity | ].
    cbn [CBV.best].
    rewrite (cbv_softLines_cost i n _ 0%nat) by reflexivity.
    replace (S n + 1)%nat with (S (S n)) by lia.
    rewrite (Nat.pow_succ_r' 2 (S n)). lia.
  - rewrite cbv_best_value. cbn [L.best].
    assert (H : forall (m : nat) (k : Z -> Z -> SimpleDocStream A) (c : nat),
              (forall nl' cc', CBV.streamNodes (k nl' cc') = c) ->
              forall nl' cc',
                CBV.streamNodes
                  (L.bestDoc fits pw (D.hcat (repeat (D.softLine : Doc A) (S m))) i k nl' cc')
                = (S m + c)%nat).
    { induction m as [ | m IH]; intros k c Hk nl' cc'.
      - change (D.hcat (repeat (D.softLine : Doc A) 1)) with (D.softLine : Doc A).
        unfold D.softLine. cbn [L.bestDoc]. unfold L.selectNicer.
        destruct (fits _ _ _ _); cbn [CBV.streamNodes]; now rewrite Hk.
      - change (D.hcat (repeat (D.softLine : Doc A) (S (S m))))
          with (Cat (D.softLine : Doc A) (D.hcat (repeat D.softLine (S m)))).
        unfold D.softLine at 1. cbn [L.bestDoc]. unfold L.selectNicer.
        destruct (fits _ _ _ _); cbn [CBV.streamNodes];
          rewrite (IH k c Hk); lia. }
    destruct n as [ | n]; [reflexivity | ].
    rewrite (H n (fun _ _ => SEmpty) 0%nat) by reflexivity. lia.
Qed.

End ChoiceCost.
